(** * llll: the Lisp tokenizer of [llll.py], embedded and verified

    The development follows [src/llll.py]: the [TokenType] enumeration, the
    [Token] record, the [Lexer] object with its four fields, the four
    sub-scanners ([discard_comment], [read_atom], [read_str], [read_num]) and
    the dispatch loop of [tokenize].

    Conventions of the embedding.
    - A Python character (a string of length one, an element of
      [list(self.text)]) is an [ascii]: the model covers the code points
      0..255.  A Python [str] is a [string].
    - A method is a computation in the monad [M]: it receives the [Lexer]
      object, and hands back an [outcome] together with the object as the
      method left it.  The object is handed back also when an exception is
      raised, as Python keeps the mutations made before a [raise].
    - [chars[i]] raises [IndexError] beyond the end of the list.  The loops of
      the sub-scanners read [chars[i]] and increment [i]; they are written by
      recursion on the part of [chars] that starts at index [i], whose head is
      [chars[i]] and whose exhaustion is the [IndexError].
    - The [while i < len(chars)] loop of [tokenize] may run forever (no branch
      of its [if]/[elif] chain has to fire), hence it takes a number of
      iterations it is allowed to make, and answers [Diverge] when that number
      does not suffice. *)

From Stdlib Require Import String Ascii List Arith Bool Lia Sorted.
From Stdlib Require Import DecimalString.
Import ListNotations.

Local Open Scope string_scope.
Local Open Scope nat_scope.

(** ** Characters and strings *)

(** The newline and the double quote, by code point. *)
Definition nl : ascii := "010"%char.
Definition dquote : ascii := "034"%char.

(** [char in s], for a one-character [char]. *)
Fixpoint str_in (char : ascii) (s : string) : bool :=
  match s with
  | EmptyString => false
  | String c s' => Ascii.eqb char c || str_in char s'
  end.

(** [char.isspace()] for a code point below 256: the characters whose
    bidirectional class is WS, B or S, or whose category is Zs. *)
Definition isspace (char : ascii) : bool :=
  let n := nat_of_ascii char in
  ((9 <=? n) && (n <=? 13)) || ((28 <=? n) && (n <=? 32))
  || (n =? 133) || (n =? 160).

(** [s + char] *)
Definition add_char (s : string) (char : ascii) : string :=
  s ++ String char EmptyString.

(** [str(n)], as an f-string prints an [int]. *)
Definition str_of_int (n : nat) : string :=
  NilEmpty.string_of_uint (Nat.to_uint n).

(** ** Data model *)

Inductive TokenType : Type :=
| PAREN_OPEN
| PAREN_CLOSE
| ATOM
| STR
| NUM
| ERR.

Record Token : Type := mkToken {
  type : TokenType;
  value : string;
  line : nat
}.

Record Lexer : Type := mkLexer {
  self_text : string;
  self_pos : nat;
  self_line : nat;
  self_tokens : list Token
}.

(** [Lexer.__init__] *)
Definition Lexer_init (text : string) : Lexer :=
  {| self_text := text; self_pos := 0; self_line := 1; self_tokens := [] |}.

(** ** Exceptions, outcomes and the method monad *)

Inductive exn : Type :=
| IndexError
| ValueError (msg : string).

Inductive outcome (A : Type) : Type :=
| Ret (a : A)
| Raise (e : exn)
| Diverge.
Arguments Ret {A} a.
Arguments Raise {A} e.
Arguments Diverge {A}.

Definition M (A : Type) : Type := Lexer -> outcome A * Lexer.

Definition ret {A} (a : A) : M A := fun self => (Ret a, self).

Definition raise {A} (e : exn) : M A := fun self => (Raise e, self).

Definition bind {A B} (m : M A) (k : A -> M B) : M B :=
  fun self =>
    match m self with
    | (Ret a, self') => k a self'
    | (Raise e, self') => (Raise e, self')
    | (Diverge, self') => (Diverge, self')
    end.

Notation "x <- m ;; k" := (bind m (fun x => k))
  (at level 61, m at next level, right associativity).
Notation "' pat <- m ;; k" := (bind m (fun x => match x with pat => k end))
  (at level 61, pat pattern, m at next level, right associativity).

(** [self.line] *)
Definition get_line : M nat := fun self => (Ret (self_line self), self).

(** [self.line += 1] *)
Definition incr_line : M unit :=
  fun self =>
    (Ret tt, {| self_text := self_text self; self_pos := self_pos self;
                self_line := self_line self + 1;
                self_tokens := self_tokens self |}).

(** [self.tokens.append(tok)] *)
Definition tokens_append (tok : Token) : M unit :=
  fun self =>
    (Ret tt, {| self_text := self_text self; self_pos := self_pos self;
                self_line := self_line self;
                self_tokens := self_tokens self ++ [tok] |}).

(** ** The methods of [Lexer] *)

(** [Lexer.error]: the hard failure, a [ValueError] that carries the line. *)
Definition error {A} (message : string) : M A :=
  l <- get_line ;;
  raise (ValueError ("Lexer error at line " ++ str_of_int l ++ ": " ++ message)).

(** The [while discarding_comment] loop; [rest] is [chars[i:]]. *)
Fixpoint discard_comment_loop (rest : list ascii) (i : nat) : M nat :=
  match rest with
  | [] => raise IndexError
  | char :: rest' =>
      if negb (Ascii.eqb char nl) then discard_comment_loop rest' (i + 1)
      else ret i
  end.

Definition discard_comment (i : nat) (chars : list ascii) : M nat :=
  discard_comment_loop (skipn i chars) i.

(** The [while reading_atom] loop; [rest] is [chars[i:]]. *)
Fixpoint read_atom_loop (rest : list ascii) (i : nat)
    (atom_err_chars : string) (atom_str : string) : M (nat * Token) :=
  match rest with
  | [] => raise IndexError
  | char :: rest' =>
      if str_in char atom_err_chars then
        l <- get_line ;;
        ret (i, mkToken ERR "Atoms cannot contain quotes or numbers" l)
      else if isspace char || str_in char (String "(" (String ")" (String nl "")))
      then
        l <- get_line ;;
        ret (i, mkToken ATOM atom_str l)
      else read_atom_loop rest' (i + 1) atom_err_chars (add_char atom_str char)
  end.

(** [line_num] is received and never read: the token takes [self.line]. *)
Definition read_atom (i : nat) (line_num : nat) (atom_err_chars : string)
    (chars : list ascii) : M (nat * Token) :=
  read_atom_loop (skipn i chars) i atom_err_chars "".

(** The [while reading_str] loop; [rest] is [chars[i:]]. *)
Fixpoint read_str_loop (rest : list ascii) (i : nat)
    (str_termination_char : string) (str_str : string) : M (nat * Token) :=
  match rest with
  | [] => raise IndexError
  | char :: rest' =>
      if str_in char str_termination_char then
        l <- get_line ;;
        ret (i + 1, mkToken STR (add_char str_str char) l)
      else if Ascii.eqb char nl then
        _ <- incr_line ;;
        read_str_loop rest' (i + 1) str_termination_char (add_char str_str char)
      else
        read_str_loop rest' (i + 1) str_termination_char (add_char str_str char)
  end.

(** The opening quote [chars[i]] is taken unexamined, then the loop runs from
    [i + 1].  [line_num] is received and never read. *)
Definition read_str (i : nat) (line_num : nat) (str_termination_char : string)
    (chars : list ascii) : M (nat * Token) :=
  match skipn i chars with
  | [] => raise IndexError
  | char :: rest =>
      read_str_loop rest (i + 1) str_termination_char (add_char "" char)
  end.

(** The [while reading_num] loop; [rest] is [chars[i:]]. *)
Fixpoint read_num_loop (rest : list ascii) (i : nat)
    (num_error_chars : string) (num_str : string) : M (nat * Token) :=
  match rest with
  | [] => raise IndexError
  | char :: rest' =>
      if str_in char num_error_chars then
        l <- get_line ;;
        ret (i, mkToken ERR
                  "Numbers cannot contain anything other than numerals and periods" l)
      else if isspace char || str_in char (String "(" (String ")" (String nl "")))
      then
        l <- get_line ;;
        ret (i, mkToken NUM num_str l)
      else read_num_loop rest' (i + 1) num_error_chars (add_char num_str char)
  end.

Definition read_num (i : nat) (line_num : nat) (num_error_chars : string)
    (chars : list ascii) : M (nat * Token) :=
  read_num_loop (skipn i chars) i num_error_chars "".

(** The three alphabets [tokenize] declares. *)
Definition atom_start_chars : string :=
  "abcdefghijklmnopqrstuvwxyzABCDEFGHIJKLMNOPQRSTUVWXYZ" ++ "#+-*=/%<>!&|^~?".
Definition str_start_chars : string := String dquote "".
Definition num_start_chars : string := "0123456789".

(** One iteration of the [while i < len(chars)] loop of [tokenize]: the
    [if]/[elif] chain on [chars[i]].  It yields the cursor the next iteration
    starts from.  The chain has no [else]: when no branch fires the cursor and
    the object are left as they were. *)
Definition tokenize_body (chars : list ascii) (i : nat) : M nat :=
  match nth_error chars i with
  | None => raise IndexError
  | Some char =>
      if Ascii.eqb char nl then
        _ <- incr_line ;; ret (i + 1)
      else if isspace char then
        ret (i + 1)
      else if Ascii.eqb char ";" then
        discard_comment i chars
      else if Ascii.eqb char "(" then
        l <- get_line ;;
        _ <- tokens_append (mkToken PAREN_OPEN "(" l) ;;
        ret (i + 1)
      else if Ascii.eqb char ")" then
        l <- get_line ;;
        _ <- tokens_append (mkToken PAREN_CLOSE ")" l) ;;
        ret (i + 1)
      else if Ascii.eqb char "'" then
        l <- get_line ;;
        _ <- tokens_append (mkToken ATOM "'" l) ;;
        ret (i + 1)
      else if str_in char atom_start_chars || Ascii.eqb char "." then
        l <- get_line ;;
        '(i', atom_token) <-
          read_atom i l (str_start_chars ++ num_start_chars) chars ;;
        _ <- tokens_append atom_token ;;
        ret i'
      else if str_in char str_start_chars then
        l <- get_line ;;
        '(i', str_token) <- read_str i l (String char "") chars ;;
        _ <- tokens_append str_token ;;
        ret i'
      else if str_in char num_start_chars then
        l <- get_line ;;
        '(i', num_token) <-
          read_num i l (atom_start_chars ++ str_start_chars) chars ;;
        _ <- tokens_append num_token ;;
        ret i'
      else ret i
  end.

(** The [while i < len(chars)] loop, allowed [fuel] iterations. *)
Fixpoint tokenize_loop (fuel : nat) (chars : list ascii) (i : nat) : M unit :=
  if i <? length chars then
    match fuel with
    | 0 => fun self => (Diverge, self)
    | S fuel' => i' <- tokenize_body chars i ;; tokenize_loop fuel' chars i'
    end
  else ret tt.

(** [Lexer.tokenize]: the answer is [self.tokens] as it stands on return. *)
Definition tokenize (fuel : nat) : M (list Token) :=
  fun self =>
    let chars := list_ascii_of_string (self_text self) in
    (_ <- tokenize_loop fuel chars 0 ;;
     fun self' => (Ret (self_tokens self'), self')) self.

(** ** The same methods over a store of objects

    Python's [Lexer] instances and the lists they hold are objects of one
    store, reached by reference.  Here the store is explicit: an instance is
    a record of attributes, of which [tokens] is the reference of a list
    object; a reference is the index of the object in the store; a method
    receives the reference [self].  The methods are the ones above, line by
    line, with [self.line] and [self.tokens] read and written in the
    store. *)

Module Heap.

Record Instance : Type := mkInstance {
  text : string;
  pos : nat;
  line : nat;
  tokens : nat
}.

Record Store : Type := mkStore {
  instances : list Instance;
  lists : list (list Token)
}.

(** [l] with its element of index [n] replaced by [x]. *)
Fixpoint set_nth {A : Type} (n : nat) (x : A) (l : list A) {struct l}
    : list A :=
  match l with
  | [] => []
  | h :: t =>
      match n with
      | 0 => x :: t
      | S n' => h :: set_nth n' x t
      end
  end.

(** The objects behind a reference.  The references of a program come from
    [Lexer_init] and from the attribute [tokens], and are in the store. *)
Definition instance_at (st : Store) (self : nat) : Instance :=
  nth self (instances st) (mkInstance "" 0 0 0).
Definition list_at (st : Store) (ref : nat) : list Token :=
  nth ref (lists st) [].

Definition H (A : Type) : Type := Store -> outcome A * Store.

Definition ret {A} (a : A) : H A := fun st => (Ret a, st).

Definition raise {A} (e : exn) : H A := fun st => (Raise e, st).

Definition bind {A B} (m : H A) (k : A -> H B) : H B :=
  fun st =>
    match m st with
    | (Ret a, st') => k a st'
    | (Raise e, st') => (Raise e, st')
    | (Diverge, st') => (Diverge, st')
    end.

Declare Scope heap_scope.
Notation "x <- m ;; k" := (bind m (fun x => k))
  (at level 61, m at next level, right associativity) : heap_scope.
Notation "' pat <- m ;; k" := (bind m (fun x => match x with pat => k end))
  (at level 61, pat pattern, m at next level, right associativity)
  : heap_scope.
Local Open Scope heap_scope.

(** [Lexer(text)]: a new instance, whose [tokens] is a new, empty list. *)
Definition Lexer_init (text : string) : Store -> nat * Store :=
  fun st =>
    (length (instances st),
     {| instances := instances st ++ [mkInstance text 0 1 (length (lists st))];
        lists := lists st ++ [[]] |}).

(** [self.text] *)
Definition get_text (self : nat) : H string :=
  fun st => (Ret (text (instance_at st self)), st).

(** [self.line] *)
Definition get_line (self : nat) : H nat :=
  fun st => (Ret (line (instance_at st self)), st).

(** [self.line += 1] *)
Definition incr_line (self : nat) : H unit :=
  fun st =>
    let o := instance_at st self in
    (Ret tt,
     {| instances :=
          set_nth self (mkInstance (text o) (pos o) (line o + 1) (tokens o))
            (instances st);
        lists := lists st |}).

(** [self.tokens], a reference. *)
Definition get_tokens (self : nat) : H nat :=
  fun st => (Ret (tokens (instance_at st self)), st).

(** [self.tokens.append(tok)]: the list object is changed in place. *)
Definition tokens_append (self : nat) (tok : Token) : H unit :=
  fun st =>
    let ref := tokens (instance_at st self) in
    (Ret tt,
     {| instances := instances st;
        lists := set_nth ref (list_at st ref ++ [tok])%list (lists st) |}).

Definition error {A} (self : nat) (message : string) : H A :=
  l <- get_line self ;;
  raise (ValueError ("Lexer error at line " ++ str_of_int l ++ ": " ++ message)).

Fixpoint discard_comment_loop (self : nat) (rest : list ascii) (i : nat)
    : H nat :=
  match rest with
  | [] => raise IndexError
  | char :: rest' =>
      if negb (Ascii.eqb char nl) then discard_comment_loop self rest' (i + 1)
      else ret i
  end.

Definition discard_comment (self : nat) (i : nat) (chars : list ascii)
    : H nat :=
  discard_comment_loop self (skipn i chars) i.

Fixpoint read_atom_loop (self : nat) (rest : list ascii) (i : nat)
    (atom_err_chars : string) (atom_str : string) : H (nat * Token) :=
  match rest with
  | [] => raise IndexError
  | char :: rest' =>
      if str_in char atom_err_chars then
        l <- get_line self ;;
        ret (i, mkToken ERR "Atoms cannot contain quotes or numbers" l)
      else if isspace char || str_in char (String "(" (String ")" (String nl "")))
      then
        l <- get_line self ;;
        ret (i, mkToken ATOM atom_str l)
      else read_atom_loop self rest' (i + 1) atom_err_chars
             (add_char atom_str char)
  end.

Definition read_atom (self : nat) (i : nat) (line_num : nat)
    (atom_err_chars : string) (chars : list ascii) : H (nat * Token) :=
  read_atom_loop self (skipn i chars) i atom_err_chars "".

Fixpoint read_str_loop (self : nat) (rest : list ascii) (i : nat)
    (str_termination_char : string) (str_str : string) : H (nat * Token) :=
  match rest with
  | [] => raise IndexError
  | char :: rest' =>
      if str_in char str_termination_char then
        l <- get_line self ;;
        ret (i + 1, mkToken STR (add_char str_str char) l)
      else if Ascii.eqb char nl then
        _ <- incr_line self ;;
        read_str_loop self rest' (i + 1) str_termination_char
          (add_char str_str char)
      else
        read_str_loop self rest' (i + 1) str_termination_char
          (add_char str_str char)
  end.

Definition read_str (self : nat) (i : nat) (line_num : nat)
    (str_termination_char : string) (chars : list ascii) : H (nat * Token) :=
  match skipn i chars with
  | [] => raise IndexError
  | char :: rest =>
      read_str_loop self rest (i + 1) str_termination_char (add_char "" char)
  end.

Fixpoint read_num_loop (self : nat) (rest : list ascii) (i : nat)
    (num_error_chars : string) (num_str : string) : H (nat * Token) :=
  match rest with
  | [] => raise IndexError
  | char :: rest' =>
      if str_in char num_error_chars then
        l <- get_line self ;;
        ret (i, mkToken ERR
                  "Numbers cannot contain anything other than numerals and periods" l)
      else if isspace char || str_in char (String "(" (String ")" (String nl "")))
      then
        l <- get_line self ;;
        ret (i, mkToken NUM num_str l)
      else read_num_loop self rest' (i + 1) num_error_chars
             (add_char num_str char)
  end.

Definition read_num (self : nat) (i : nat) (line_num : nat)
    (num_error_chars : string) (chars : list ascii) : H (nat * Token) :=
  read_num_loop self (skipn i chars) i num_error_chars "".

(** One iteration of the loop of [tokenize]. *)
Definition tokenize_body (self : nat) (chars : list ascii) (i : nat) : H nat :=
  match nth_error chars i with
  | None => raise IndexError
  | Some char =>
      if Ascii.eqb char nl then
        _ <- incr_line self ;; ret (i + 1)
      else if isspace char then
        ret (i + 1)
      else if Ascii.eqb char ";" then
        discard_comment self i chars
      else if Ascii.eqb char "(" then
        l <- get_line self ;;
        _ <- tokens_append self (mkToken PAREN_OPEN "(" l) ;;
        ret (i + 1)
      else if Ascii.eqb char ")" then
        l <- get_line self ;;
        _ <- tokens_append self (mkToken PAREN_CLOSE ")" l) ;;
        ret (i + 1)
      else if Ascii.eqb char "'" then
        l <- get_line self ;;
        _ <- tokens_append self (mkToken ATOM "'" l) ;;
        ret (i + 1)
      else if str_in char atom_start_chars || Ascii.eqb char "." then
        l <- get_line self ;;
        '(i', atom_token) <-
          read_atom self i l (str_start_chars ++ num_start_chars) chars ;;
        _ <- tokens_append self atom_token ;;
        ret i'
      else if str_in char str_start_chars then
        l <- get_line self ;;
        '(i', str_token) <- read_str self i l (String char "") chars ;;
        _ <- tokens_append self str_token ;;
        ret i'
      else if str_in char num_start_chars then
        l <- get_line self ;;
        '(i', num_token) <-
          read_num self i l (atom_start_chars ++ str_start_chars) chars ;;
        _ <- tokens_append self num_token ;;
        ret i'
      else ret i
  end.

Fixpoint tokenize_loop (fuel : nat) (self : nat) (chars : list ascii)
    (i : nat) : H unit :=
  if i <? length chars then
    match fuel with
    | 0 => fun st => (Diverge, st)
    | S fuel' =>
        i' <- tokenize_body self chars i ;; tokenize_loop fuel' self chars i'
    end
  else ret tt.

(** [Lexer.tokenize]: the answer is the reference [self.tokens], the list
    object of the instance itself. *)
Definition tokenize (fuel : nat) (self : nat) : H nat :=
  text <- get_text self ;;
  _ <- tokenize_loop fuel self (list_ascii_of_string text) 0 ;;
  get_tokens self.

End Heap.

(** * Vocabulary of the properties *)

(** ** Characters *)

(** [char.isspace() or char in "()\n"], the test that ends an atom or a
    number without an error. *)
Definition is_terminator (char : ascii) : bool :=
  isspace char || str_in char (String "(" (String ")" (String nl ""))).

(** The characters for which the [if]/[elif] chain of [tokenize] has a
    branch. *)
Definition classified (char : ascii) : bool :=
  Ascii.eqb char nl || isspace char || Ascii.eqb char ";"
  || Ascii.eqb char "(" || Ascii.eqb char ")" || Ascii.eqb char "'"
  || (str_in char atom_start_chars || Ascii.eqb char ".")
  || str_in char str_start_chars || str_in char num_start_chars.

(** The number of newlines among some characters. *)
Definition count_nl (l : list ascii) : nat := count_occ ascii_dec l nl.

(** ** The common shape of [read_atom] and [read_num] *)

(** The two diagnostics. *)
Definition atom_msg : string := "Atoms cannot contain quotes or numbers".
Definition num_msg : string :=
  "Numbers cannot contain anything other than numerals and periods".

(** [read_atom] and [read_num] run the same loop, up to the kind of the token
    and the text of the diagnostic. *)
Fixpoint scan_loop (kind : TokenType) (msg : string) (rest : list ascii)
    (i : nat) (err_chars : string) (acc : string) : M (nat * Token) :=
  match rest with
  | [] => raise IndexError
  | char :: rest' =>
      if str_in char err_chars then
        l <- get_line ;; ret (i, mkToken ERR msg l)
      else if is_terminator char then
        l <- get_line ;; ret (i, mkToken kind acc l)
      else scan_loop kind msg rest' (i + 1) err_chars (add_char acc char)
  end.

(** A character the loop accumulates: neither an error nor a terminator. *)
Definition accumulated (err_chars : string) (char : ascii) : Prop :=
  str_in char err_chars = false /\ is_terminator char = false.

(** ** States of the object *)

(** The object after [n] executions of [self.line += 1]. *)
Definition advance_line (n : nat) (self : Lexer) : Lexer :=
  {| self_text := self_text self; self_pos := self_pos self;
     self_line := self_line self + n; self_tokens := self_tokens self |}.

(** The tokens are in line order and none is ahead of the line counter. *)
Definition lines_inv (self : Lexer) : Prop :=
  StronglySorted le (map line (self_tokens self)) /\
  Forall (fun tok => line tok <= self_line self) (self_tokens self).

(** [tok] with its line moved by [d]. *)
Definition shift_tok (d : nat) (tok : Token) : Token :=
  mkToken (type tok) (value tok) (line tok + d).

(** The object [self] as it would be had the scan started with the line
    counter [d] higher and with the tokens [kept] already in the list. *)
Definition rebase (d : nat) (kept : list Token) (self : Lexer) : Lexer :=
  {| self_text := self_text self; self_pos := self_pos self;
     self_line := self_line self + d;
     self_tokens := kept ++ map (shift_tok d) (self_tokens self) |}.

(** An answer and the object it comes with, rebased; [f] rebases the value
    returned. *)
Definition rebase_result {A} (f : A -> A) (d : nat) (kept : list Token)
    (r : outcome A * Lexer) : outcome A * Lexer :=
  (match fst r with
   | Ret a => Ret (f a)
   | Raise e => Raise e
   | Diverge => Diverge
   end, rebase d kept (snd r)).

(** The answer of a scanner, a cursor and a token, with the token's line
    moved. *)
Definition shift_scanned (d : nat) (x : nat * Token) : nat * Token :=
  (fst x, shift_tok d (snd x)).

(** ** Runs of the dispatch loop *)

(** The configurations (cursor, object) at which an iteration of the loop
    of [tokenize] starts, when the scan starts from [self0]. *)
Inductive visits (chars : list ascii) (self0 : Lexer) : nat -> Lexer -> Prop :=
| visits_start : visits chars self0 0 self0
| visits_next i self j self' :
    visits chars self0 i self ->
    i < length chars ->
    tokenize_body chars i self = (Ret j, self') ->
    visits chars self0 j self'.

(** No scan runs past the end of the buffer, and the dispatcher never lands
    on a character it has no rule for. *)
Definition well_scanned (chars : list ascii) (self0 : Lexer) : Prop :=
  forall i self,
    visits chars self0 i self -> i < length chars ->
    exists char j self',
      nth_error chars i = Some char /\ classified char = true /\
      tokenize_body chars i self = (Ret j, self').

(** ** Sample buffers *)

(** The buffer made of a quote, [hello], a newline, [world] and a quote. *)
Definition hello_world : string :=
  String dquote ("hello" ++ String nl ("world" ++ String dquote "")).

(** The buffer [; comment], a newline, [(a)]. *)
Definition comment_then_list : string :=
  "; comment" ++ String nl "(a)".

(** ** Slices of the buffer and shapes of tokens *)

(** The characters [chars[i:j]]. *)
Definition chars_between (chars : list ascii) (i j : nat) : list ascii :=
  firstn (j - i) (skipn i chars).

(** The text [chars[i:j]]. *)
Definition slice (chars : list ascii) (i j : nat) : string :=
  string_of_list_ascii (chars_between chars i j).

(** The error sets [tokenize] hands to [read_atom] and to [read_num]. *)
Definition atom_error_set : string := str_start_chars ++ num_start_chars.
Definition num_error_set : string := atom_start_chars ++ str_start_chars.

(** The characters on which [tokenize] calls a scanner of [atom_start_chars],
    [str_start_chars] or [num_start_chars]. *)
Definition restart (char : ascii) : bool :=
  str_in char atom_start_chars || str_in char str_start_chars
  || str_in char num_start_chars.

(** What the text of a token of each kind looks like. *)
Definition token_shape (tok : Token) : Prop :=
  match type tok with
  | PAREN_OPEN => value tok = "("
  | PAREN_CLOSE => value tok = ")"
  | ATOM =>
      value tok <> "" /\
      Forall (accumulated atom_error_set) (list_ascii_of_string (value tok))
  | STR =>
      exists body,
        value tok = String dquote (string_of_list_ascii body ++ String dquote "")
        /\ ~ In dquote body
  | NUM =>
      value tok <> "" /\
      Forall (accumulated num_error_set) (list_ascii_of_string (value tok))
  | ERR => value tok = atom_msg \/ value tok = num_msg
  end.

(** A token appended by the iteration that went from the cursor [i] to the
    cursor [j]: its text has the shape of its kind; unless it is an [ERR]
    token its text is [chars[i:j]]; and after an [ERR] token the cursor is
    on a character that starts a scanner. *)
Definition emitted_ok (chars : list ascii) (i j : nat) (tok : Token) : Prop :=
  token_shape tok /\
  (type tok <> ERR -> value tok = slice chars i j) /\
  (type tok = ERR -> exists c, nth_error chars j = Some c /\ restart c = true).

(** The tokens of a buffer of parentheses and blanks, from the line [l]. *)
Fixpoint paren_tokens (chars : list ascii) (l : nat) : list Token :=
  match chars with
  | [] => []
  | char :: rest =>
      if Ascii.eqb char nl then paren_tokens rest (l + 1)
      else if Ascii.eqb char "(" then
        mkToken PAREN_OPEN "(" l :: paren_tokens rest l
      else if Ascii.eqb char ")" then
        mkToken PAREN_CLOSE ")" l :: paren_tokens rest l
      else paren_tokens rest l
  end.

(** A parenthesis or a whitespace character. *)
Definition paren_or_blank (char : ascii) : Prop :=
  char = "("%char \/ char = ")"%char \/ isspace char = true.

(** ** Positions in the buffer *)

(** The line of the index [j]: 1 plus the number of newlines before it. *)
Definition line_at (chars : list ascii) (j : nat) : nat :=
  1 + count_nl (firstn j chars).

(** Spans [(a, b)], for [chars[a:b]], that are not empty, do not overlap and
    follow one another from the index [lo] on. *)
Fixpoint spans_in_order (lo : nat) (spans : list (nat * nat)) : Prop :=
  match spans with
  | [] => True
  | (a, b) :: rest => lo <= a /\ a < b /\ spans_in_order b rest
  end.

(** The index the last of the spans ends on, or [lo] when there is none. *)
Fixpoint spans_end (lo : nat) (spans : list (nat * nat)) : nat :=
  match spans with
  | [] => lo
  | (_, b) :: rest => spans_end b rest
  end.

(** ** An instance of the store, seen as an object *)

(** The object the instance [self] of the store is: its attributes, with
    the list its [tokens] refers to. *)
Definition view (st : Heap.Store) (self : nat) : Lexer :=
  let o := Heap.instance_at st self in
  mkLexer (Heap.text o) (Heap.pos o) (Heap.line o)
    (Heap.list_at st (Heap.tokens o)).

(** The store in which the instance [self] and its list are as the object
    [s] says, and every other object is as it was. *)
Definition put (st : Heap.Store) (self : nat) (s : Lexer) : Heap.Store :=
  let o := Heap.instance_at st self in
  Heap.mkStore
    (Heap.set_nth self
       (Heap.mkInstance (self_text s) (self_pos s) (self_line s)
          (Heap.tokens o))
       (Heap.instances st))
    (Heap.set_nth (Heap.tokens o) (self_tokens s) (Heap.lists st)).

(** The reference [self] and the reference of its list are in the store. *)
Definition valid (st : Heap.Store) (self : nat) : Prop :=
  self < length (Heap.instances st) /\
  Heap.tokens (Heap.instance_at st self) < length (Heap.lists st).

(** A method of the object, run on the instance [self] of a store. *)
Definition lift {A} (self : nat) (m : M A) : Heap.H A :=
  fun st => (fst (m (view st self)), put st self (snd (m (view st self)))).

(** The method [mh] of the store does to the instance [self], and to
    nothing else, what the method [m] does to the object. *)
Definition simulates {A} (self : nat) (mh : Heap.H A) (m : M A) : Prop :=
  forall st, valid st self -> mh st = lift self m st.

(** * Properties *)

(** ** Strings *)

Lemma append_nil_r (s : string) : s ++ "" = s.
Proof. induction s as [|c s IH]; simpl; [reflexivity|now rewrite IH]. Qed.

Lemma append_assoc (s t u : string) : (s ++ t) ++ u = s ++ (t ++ u).
Proof. induction s as [|c s IH]; simpl; [reflexivity|now rewrite IH]. Qed.

Lemma add_char_append (s : string) (c : ascii) (t : string) :
  add_char s c ++ t = s ++ String c t.
Proof. unfold add_char. rewrite append_assoc. reflexivity. Qed.

(** ** Reading [chars[i]] through [skipn] *)

Lemma nth_error_skipn_cons (chars : list ascii) (i : nat) (char : ascii) :
  nth_error chars i = Some char ->
  skipn i chars = char :: skipn (i + 1) chars.
Proof.
  revert chars; induction i as [|i IH]; intros chars E.
  - destruct chars; simpl in E; [discriminate|]. inversion E; reflexivity.
  - destruct chars as [|c chars]; simpl in E; [discriminate|].
    simpl. apply IH. exact E.
Qed.

Lemma nth_error_in_suffix (chars pre post : list ascii) (i : nat) (c : ascii) :
  skipn i chars = (pre ++ c :: post)%list ->
  nth_error chars (i + length pre) = Some c.
Proof.
  intros E. rewrite <- nth_error_skipn, E.
  rewrite nth_error_app2 by lia.
  rewrite Nat.sub_diag. reflexivity.
Qed.

Lemma nth_error_in_prefix (chars pre post : list ascii) (i k : nat) :
  skipn i chars = (pre ++ post)%list -> k < length pre ->
  nth_error chars (i + k) = nth_error pre k.
Proof.
  intros E Hk. rewrite <- nth_error_skipn, E.
  apply nth_error_app1. exact Hk.
Qed.

Lemma skipn_beyond (chars : list ascii) (i : nat) :
  nth_error chars i = None -> skipn i chars = [].
Proof. intros E. apply skipn_all2. apply nth_error_None. exact E. Qed.

(** ** The loops of the scanners, read by index

    Each loop, run on [chars[i:]] with the cursor [i], reads [chars[i]],
    raises [IndexError] when there is none, and goes on with [i + 1] on
    [chars[i+1:]]. *)

Ltac by_index chars i :=
  let c := fresh "c" in
  let E := fresh "E" in
  destruct (nth_error chars i) as [c|] eqn:E;
  [ rewrite (nth_error_skipn_cons _ _ _ E); reflexivity
  | rewrite (skipn_beyond _ _ E); reflexivity ].

Lemma discard_comment_loop_at chars i :
  discard_comment_loop (skipn i chars) i
  = match nth_error chars i with
    | None => raise IndexError
    | Some char =>
        if negb (Ascii.eqb char nl)
        then discard_comment_loop (skipn (i + 1) chars) (i + 1)
        else ret i
    end.
Proof. by_index chars i. Qed.

Lemma read_atom_loop_at chars i atom_err_chars atom_str :
  read_atom_loop (skipn i chars) i atom_err_chars atom_str
  = match nth_error chars i with
    | None => raise IndexError
    | Some char =>
        if str_in char atom_err_chars then
          l <- get_line ;; ret (i, mkToken ERR atom_msg l)
        else if is_terminator char then
          l <- get_line ;; ret (i, mkToken ATOM atom_str l)
        else read_atom_loop (skipn (i + 1) chars) (i + 1) atom_err_chars
               (add_char atom_str char)
    end.
Proof. by_index chars i. Qed.

Lemma read_str_loop_at chars i str_termination_char str_str :
  read_str_loop (skipn i chars) i str_termination_char str_str
  = match nth_error chars i with
    | None => raise IndexError
    | Some char =>
        if str_in char str_termination_char then
          l <- get_line ;; ret (i + 1, mkToken STR (add_char str_str char) l)
        else if Ascii.eqb char nl then
          _ <- incr_line ;;
          read_str_loop (skipn (i + 1) chars) (i + 1) str_termination_char
            (add_char str_str char)
        else
          read_str_loop (skipn (i + 1) chars) (i + 1) str_termination_char
            (add_char str_str char)
    end.
Proof. by_index chars i. Qed.

Lemma read_num_loop_at chars i num_error_chars num_str :
  read_num_loop (skipn i chars) i num_error_chars num_str
  = match nth_error chars i with
    | None => raise IndexError
    | Some char =>
        if str_in char num_error_chars then
          l <- get_line ;; ret (i, mkToken ERR num_msg l)
        else if is_terminator char then
          l <- get_line ;; ret (i, mkToken NUM num_str l)
        else read_num_loop (skipn (i + 1) chars) (i + 1) num_error_chars
               (add_char num_str char)
    end.
Proof. by_index chars i. Qed.

(** ** The common shape of two scanners *)

Lemma read_atom_loop_scan rest i err acc :
  read_atom_loop rest i err acc = scan_loop ATOM atom_msg rest i err acc.
Proof.
  revert i acc; induction rest as [|c rest IH]; intros i acc; simpl.
  - reflexivity.
  - rewrite IH. reflexivity.
Qed.

Lemma read_num_loop_scan rest i err acc :
  read_num_loop rest i err acc = scan_loop NUM num_msg rest i err acc.
Proof.
  revert i acc; induction rest as [|c rest IH]; intros i acc; simpl.
  - reflexivity.
  - rewrite IH. reflexivity.
Qed.

(** What [scan_loop] answers, in full: the object is untouched; an answer is
    given at the first character that is an error character or a terminator,
    the cursor is the index of that character, and the token carries the
    line counter. *)
Lemma scan_loop_spec kind msg rest i err acc self :
  snd (scan_loop kind msg rest i err acc self) = self /\
  match fst (scan_loop kind msg rest i err acc self) with
  | Ret (j, tok) =>
      exists pre c post,
        rest = (pre ++ c :: post)%list /\ Forall (accumulated err) pre /\
        j = i + length pre /\
        ((str_in c err = true /\ tok = mkToken ERR msg (self_line self)) \/
         (str_in c err = false /\ is_terminator c = true /\
          tok = mkToken kind (acc ++ string_of_list_ascii pre) (self_line self)))
  | Raise e => e = IndexError /\ Forall (accumulated err) rest
  | Diverge => False
  end.
Proof.
  revert i acc; induction rest as [|c rest IH]; intros i acc; simpl.
  - split; [reflexivity|]. split; [reflexivity|constructor].
  - destruct (str_in c err) eqn:Eerr.
    + split; [reflexivity|]. simpl.
      exists [], c, rest. split; [reflexivity|]. split; [constructor|].
      split; [simpl; lia|]. left; auto.
    + destruct (is_terminator c) eqn:Eterm.
      * split; [reflexivity|]. simpl.
        exists [], c, rest. split; [reflexivity|]. split; [constructor|].
        split; [simpl; lia|]. right. split; [exact Eerr|].
        split; [exact Eterm|]. simpl. now rewrite append_nil_r.
      * specialize (IH (i + 1) (add_char acc c)).
        destruct IH as [IHs IHr]. split; [exact IHs|].
        destruct (fst (scan_loop kind msg rest (i + 1) err (add_char acc c) self))
          as [[j tok]|e|].
        -- destruct IHr as (pre & d & post & -> & Hpre & -> & Hd).
           exists (c :: pre), d, post. split; [reflexivity|].
           split; [constructor; [split; assumption|exact Hpre]|].
           split; [simpl; lia|].
           destruct Hd as [Hd|(Hd1 & Hd2 & Hd3)]; [left; exact Hd|right].
           split; [exact Hd1|]. split; [exact Hd2|]. rewrite Hd3. f_equal.
           simpl. rewrite add_char_append. reflexivity.
        -- destruct IHr as [-> Hall]. split; [reflexivity|].
           constructor; [split; assumption|exact Hall].
        -- exact IHr.
Qed.

(** ** The comment skipper *)

Lemma discard_comment_loop_spec rest i self :
  snd (discard_comment_loop rest i self) = self /\
  match fst (discard_comment_loop rest i self) with
  | Ret j =>
      exists pre post,
        rest = (pre ++ nl :: post)%list /\
        Forall (fun c => Ascii.eqb c nl = false) pre /\
        j = i + length pre
  | Raise e => e = IndexError /\ Forall (fun c => Ascii.eqb c nl = false) rest
  | Diverge => False
  end.
Proof.
  revert i; induction rest as [|c rest IH]; intros i; simpl.
  - split; [reflexivity|]. split; [reflexivity|constructor].
  - destruct (Ascii.eqb c nl) eqn:Ec; simpl.
    + apply Ascii.eqb_eq in Ec. subst c. split; [reflexivity|].
      exists [], rest. split; [reflexivity|]. split; [constructor|simpl; lia].
    + destruct (IH (i + 1)) as [IHs IHr]. split; [exact IHs|].
      destruct (fst (discard_comment_loop rest (i + 1) self)) as [j|e|].
      * destruct IHr as (pre & post & -> & Hpre & ->).
        exists (c :: pre), post. split; [reflexivity|].
        split; [constructor; assumption|simpl; lia].
      * destruct IHr as [-> Hall]. split; [reflexivity|].
        constructor; assumption.
      * exact IHr.
Qed.

(** ** The string scanner *)

Lemma advance_line_0 self : advance_line 0 self = self.
Proof. destruct self; unfold advance_line; simpl. f_equal. lia. Qed.

Lemma advance_line_add n m self :
  advance_line n (advance_line m self) = advance_line (m + n) self.
Proof. destruct self; unfold advance_line; simpl. f_equal. lia. Qed.

Lemma count_nl_cons_nl l : count_nl (nl :: l) = 1 + count_nl l.
Proof. unfold count_nl. rewrite count_occ_cons_eq; reflexivity. Qed.

Lemma count_nl_cons_other c l :
  Ascii.eqb c nl = false -> count_nl (c :: l) = count_nl l.
Proof.
  intros E. unfold count_nl. apply count_occ_cons_neq.
  intros ->. rewrite Ascii.eqb_refl in E. discriminate.
Qed.

(** What [read_str_loop] answers, in full: the answer is given at the first
    character of [str_termination_char]; the line counter has been advanced
    once per newline met before it, and the token is stamped with the
    counter as it stands then. *)
Lemma read_str_loop_spec rest i term acc self :
  match read_str_loop rest i term acc self with
  | (Ret (j, tok), self') =>
      exists pre c post,
        rest = (pre ++ c :: post)%list /\
        Forall (fun x => str_in x term = false) pre /\
        str_in c term = true /\
        j = i + length pre + 1 /\
        self' = advance_line (count_nl pre) self /\
        tok = mkToken STR (acc ++ string_of_list_ascii (pre ++ [c]))
                (self_line self + count_nl pre)
  | (Raise e, self') =>
      e = IndexError /\ Forall (fun x => str_in x term = false) rest /\
      self' = advance_line (count_nl rest) self
  | (Diverge, _) => False
  end.
Proof.
  revert i acc self; induction rest as [|c rest IH]; intros i acc self; simpl.
  - unfold raise. split; [reflexivity|]. split; [constructor|].
    symmetry; apply advance_line_0.
  - destruct (str_in c term) eqn:Eterm.
    + unfold bind, get_line, ret.
      exists [], c, rest. split; [reflexivity|]. split; [constructor|].
      split; [exact Eterm|]. split; [simpl; lia|].
      split; [symmetry; apply advance_line_0|].
      simpl. unfold count_nl; simpl. f_equal. lia.
    + assert (Hstep : forall self0 : Lexer,
                match read_str_loop rest (i + 1) term (add_char acc c) self0 with
                | (Ret (j, tok), self') =>
                    exists pre d post,
                      (c :: rest = (c :: pre) ++ d :: post)%list /\
                      Forall (fun x => str_in x term = false) (c :: pre) /\
                      str_in d term = true /\
                      j = i + length (c :: pre) + 1 /\
                      self' = advance_line (count_nl pre) self0 /\
                      tok = mkToken STR
                              (acc ++ string_of_list_ascii ((c :: pre) ++ [d]))
                              (self_line self0 + count_nl pre)
                | (Raise e, self') =>
                    e = IndexError /\
                    Forall (fun x => str_in x term = false) (c :: rest) /\
                    self' = advance_line (count_nl rest) self0
                | (Diverge, _) => False
                end).
      { intros self0. specialize (IH (i + 1) (add_char acc c) self0).
        destruct (read_str_loop rest (i + 1) term (add_char acc c) self0)
          as [[[j tok]|e|] self'].
        - destruct IH as (pre & d & post & -> & Hpre & Hd & -> & -> & ->).
          exists pre, d, post. split; [reflexivity|].
          split; [constructor; assumption|]. split; [exact Hd|].
          split; [simpl; lia|]. split; [reflexivity|].
          f_equal. simpl. apply add_char_append.
        - destruct IH as (-> & Hall & ->). split; [reflexivity|].
          split; [constructor; assumption|reflexivity].
        - exact IH. }
      destruct (Ascii.eqb c nl) eqn:Enl.
      * apply Ascii.eqb_eq in Enl. subst c.
        unfold bind at 1. unfold incr_line at 1.
        specialize (Hstep (advance_line 1 self)).
        change {| self_text := self_text self; self_pos := self_pos self;
                  self_line := self_line self + 1;
                  self_tokens := self_tokens self |}
          with (advance_line 1 self).
        destruct (read_str_loop rest (i + 1) term (add_char acc nl)
                    (advance_line 1 self)) as [[[j tok]|e|] self'].
        -- destruct Hstep as (pre & d & post & E & Hpre & Hd & -> & -> & ->).
           exists (nl :: pre), d, post. split; [exact E|].
           split; [exact Hpre|]. split; [exact Hd|]. split; [reflexivity|].
           rewrite count_nl_cons_nl, advance_line_add.
           split; [reflexivity|]. f_equal. simpl. lia.
        -- destruct Hstep as (-> & Hall & ->). split; [reflexivity|].
           split; [exact Hall|].
           rewrite count_nl_cons_nl, advance_line_add. reflexivity.
        -- exact Hstep.
      * specialize (Hstep self).
        destruct (read_str_loop rest (i + 1) term (add_char acc c) self)
          as [[[j tok]|e|] self'].
        -- destruct Hstep as (pre & d & post & E & Hpre & Hd & -> & -> & ->).
           exists (c :: pre), d, post. split; [exact E|].
           split; [exact Hpre|]. split; [exact Hd|]. split; [reflexivity|].
           rewrite (count_nl_cons_other c pre Enl). split; reflexivity.
        -- destruct Hstep as (-> & Hall & ->). split; [reflexivity|].
           split; [exact Hall|].
           rewrite (count_nl_cons_other c rest Enl). reflexivity.
        -- exact Hstep.
Qed.

(** ** One iteration of the dispatch loop *)

Lemma str_in_app c a b : str_in c (a ++ b) = str_in c a || str_in c b.
Proof.
  induction a as [|d a IH]; simpl; [reflexivity|].
  rewrite IH. apply orb_assoc.
Qed.

(** A character that starts an atom is not one of the atom's error
    characters. *)
Lemma atom_start_not_err c :
  str_in c atom_start_chars || Ascii.eqb c "." = true ->
  str_in c (str_start_chars ++ num_start_chars) = false.
Proof.
  destruct c as [[] [] [] [] [] [] [] []]; vm_compute; intros H;
    first [reflexivity | discriminate H].
Qed.

(** The scan of an atom or a number that starts on an accumulated character
    moves the cursor. *)
Lemma scan_loop_progress kind msg chars i err c self j tok self' :
  nth_error chars i = Some c -> accumulated err c ->
  scan_loop kind msg (skipn i chars) i err "" self = (Ret (j, tok), self') ->
  i < j.
Proof.
  intros Hc [Hacc1 Hacc2] E.
  pose proof (scan_loop_spec kind msg (skipn i chars) i err "" self) as [_ Hr].
  rewrite E in Hr. simpl in Hr.
  destruct Hr as (pre & d & post & Hrest & _ & -> & Hd).
  rewrite (nth_error_skipn_cons _ _ _ Hc) in Hrest.
  destruct pre as [|p pre]; [|simpl; lia].
  simpl in Hrest. inversion Hrest; subst d.
  destruct Hd as [[Hd _]|(_ & Hd & _)]; congruence.
Qed.

(** What one iteration does to the object: the buffer and [pos] stay, the
    line counter does not decrease, at most one token is appended and it
    carries the line counter as the iteration leaves it.  And what it
    answers: a cursor beyond [i] when [chars[i]] is classified, the cursor
    [i] and the same object when it is not, or an [IndexError] with no
    token appended. *)
Lemma tokenize_body_spec chars i char self :
  nth_error chars i = Some char ->
  self_text (snd (tokenize_body chars i self)) = self_text self /\
  self_pos (snd (tokenize_body chars i self)) = self_pos self /\
  self_line self <= self_line (snd (tokenize_body chars i self)) /\
  (self_tokens (snd (tokenize_body chars i self)) = self_tokens self \/
   exists tok,
     self_tokens (snd (tokenize_body chars i self))
     = (self_tokens self ++ [tok])%list /\
     line tok = self_line (snd (tokenize_body chars i self))) /\
  match fst (tokenize_body chars i self) with
  | Ret j =>
      if classified char then i < j
      else j = i /\ snd (tokenize_body chars i self) = self
  | Raise e =>
      e = IndexError /\
      self_tokens (snd (tokenize_body chars i self)) = self_tokens self
  | Diverge => False
  end.
Proof.
  intros Hc. unfold tokenize_body, classified. rewrite Hc.
  destruct (Ascii.eqb char nl) eqn:E1.
  { simpl. repeat split; try lia. left; reflexivity. }
  destruct (isspace char) eqn:E2.
  { simpl. repeat split; try lia. left; reflexivity. }
  destruct (Ascii.eqb char ";") eqn:E3.
  { unfold discard_comment.
    pose proof (discard_comment_loop_spec (skipn i chars) i self) as [Hs Hr].
    rewrite Hs. repeat split; try lia; [left; reflexivity|].
    destruct (fst (discard_comment_loop (skipn i chars) i self)) as [j|e|];
      [|split; [tauto|reflexivity]|exact Hr].
    destruct Hr as (pre & post & Hrest & _ & ->). simpl.
    rewrite (nth_error_skipn_cons _ _ _ Hc) in Hrest.
    destruct pre as [|p pre]; [|simpl; lia].
    simpl in Hrest. inversion Hrest; subst char. discriminate E1. }
  destruct (Ascii.eqb char "(") eqn:E4.
  { simpl. repeat split; try lia. right; eexists; split; reflexivity. }
  destruct (Ascii.eqb char ")") eqn:E5.
  { simpl. repeat split; try lia. right; eexists; split; reflexivity. }
  destruct (Ascii.eqb char "'") eqn:E6.
  { simpl. repeat split; try lia. right; eexists; split; reflexivity. }
  assert (Hterm : is_terminator char = false).
  { unfold is_terminator. simpl. rewrite E1, E2, E4, E5. reflexivity. }
  destruct (str_in char atom_start_chars || Ascii.eqb char ".") eqn:E7.
  { unfold bind, get_line, read_atom. rewrite read_atom_loop_scan.
    pose proof (scan_loop_spec ATOM atom_msg (skipn i chars) i
                  (str_start_chars ++ num_start_chars) "" self) as [Hs Hr].
    pose proof (fun j tok self' =>
                  scan_loop_progress ATOM atom_msg chars i
                    (str_start_chars ++ num_start_chars) char self j tok self'
                    Hc (conj (atom_start_not_err char E7) Hterm)) as Hp.
    destruct (scan_loop ATOM atom_msg (skipn i chars) i
                (str_start_chars ++ num_start_chars) "" self)
      as [[[j tok]|e|] self'] eqn:E; simpl in Hs, Hr; subst self'; simpl.
    - repeat split; try lia; [|eapply Hp; reflexivity].
      right. exists tok. split; [reflexivity|].
      destruct Hr as (pre & d & post & _ & _ & _ & [[_ ->]|(_ & _ & ->)]);
        reflexivity.
    - repeat split; try lia; [left; reflexivity|tauto].
    - destruct Hr. }
  destruct (str_in char str_start_chars) eqn:E8.
  { unfold bind, get_line, read_str.
    rewrite (nth_error_skipn_cons _ _ _ Hc).
    pose proof (read_str_loop_spec (skipn (i + 1) chars) (i + 1)
                  (String char "") (add_char "" char) self) as Hr.
    destruct (read_str_loop (skipn (i + 1) chars) (i + 1) (String char "")
                (add_char "" char) self) as [[[j tok]|e|] self'].
    - destruct Hr as (pre & d & post & _ & _ & _ & -> & -> & ->). simpl.
      repeat split; try lia. right. eexists. split; reflexivity.
    - destruct Hr as (-> & _ & ->). simpl.
      repeat split; try lia. left; reflexivity.
    - destruct Hr. }
  destruct (str_in char num_start_chars) eqn:E9.
  { unfold bind, get_line, read_num. rewrite read_num_loop_scan.
    assert (Hacc : accumulated (atom_start_chars ++ str_start_chars) char).
    { split; [|exact Hterm]. rewrite str_in_app.
      apply orb_false_iff in E7. destruct E7 as [E7 _].
      rewrite E7, E8. reflexivity. }
    pose proof (scan_loop_spec NUM num_msg (skipn i chars) i
                  (atom_start_chars ++ str_start_chars) "" self) as [Hs Hr].
    pose proof (fun j tok self' =>
                  scan_loop_progress NUM num_msg chars i
                    (atom_start_chars ++ str_start_chars) char self j tok self'
                    Hc Hacc) as Hp.
    destruct (scan_loop NUM num_msg (skipn i chars) i
                (atom_start_chars ++ str_start_chars) "" self)
      as [[[j tok]|e|] self'] eqn:E; simpl in Hs, Hr; subst self'; simpl.
    - repeat split; try lia; [|eapply Hp; reflexivity].
      right. exists tok. split; [reflexivity|].
      destruct Hr as (pre & d & post & _ & _ & _ & [[_ ->]|(_ & _ & ->)]);
        reflexivity.
    - repeat split; try lia; [left; reflexivity|tauto].
    - destruct Hr. }
  simpl. repeat split; try lia. left; reflexivity.
Qed.

(** ** The dispatch loop *)

Lemma in_bounds_char (chars : list ascii) (i : nat) :
  (i <? length chars) = true -> exists char, nth_error chars i = Some char.
Proof.
  intros H. apply Nat.ltb_lt in H.
  destruct (nth_error chars i) as [c|] eqn:E; [exists c; reflexivity|].
  apply nth_error_None in E. lia.
Qed.

(** Unfolding of one allowed iteration. *)
Lemma tokenize_loop_step fuel chars i self :
  i < length chars ->
  tokenize_loop (S fuel) chars i self =
  match tokenize_body chars i self with
  | (Ret j, self') => tokenize_loop fuel chars j self'
  | (Raise e, self') => (Raise e, self')
  | (Diverge, self') => (Diverge, self')
  end.
Proof.
  intros H. apply Nat.ltb_lt in H. simpl. rewrite H. reflexivity.
Qed.

Lemma tokenize_loop_exit fuel chars i self :
  length chars <= i -> tokenize_loop fuel chars i self = (Ret tt, self).
Proof.
  intros H. apply Nat.ltb_ge in H. destruct fuel; simpl; rewrite H; reflexivity.
Qed.

(** The only exception the loop lets out is [IndexError]. *)
Lemma tokenize_loop_raises fuel chars i self e :
  fst (tokenize_loop fuel chars i self) = Raise e -> e = IndexError.
Proof.
  revert i self; induction fuel as [|fuel IH]; intros i self; simpl;
    destruct (i <? length chars) eqn:Ei; simpl; try discriminate.
  destruct (in_bounds_char _ _ Ei) as [c Hc].
  pose proof (tokenize_body_spec chars i c self Hc) as (_ & _ & _ & _ & Hr).
  unfold bind.
  destruct (tokenize_body chars i self) as [[j|e'|] self']; simpl in *.
  - apply IH.
  - intros [= <-]. apply Hr.
  - discriminate.
Qed.

(** More iterations allowed do not change an answer already reached. *)
Lemma tokenize_loop_fuel_mono fuel fuel' chars i self :
  fuel <= fuel' ->
  fst (tokenize_loop fuel chars i self) <> Diverge ->
  tokenize_loop fuel' chars i self = tokenize_loop fuel chars i self.
Proof.
  revert fuel' i self; induction fuel as [|fuel IH]; intros fuel' i self Hle Hnd.
  - simpl in *. destruct (i <? length chars) eqn:Ei.
    + simpl in Hnd. congruence.
    + destruct fuel'; simpl; rewrite Ei; reflexivity.
  - destruct fuel' as [|fuel']; [lia|].
    simpl in *. destruct (i <? length chars) eqn:Ei; [|reflexivity].
    unfold bind in *.
    destruct (tokenize_body chars i self) as [[j|e|] self']; try reflexivity.
    apply IH; [lia|exact Hnd].
Qed.

Lemma StronglySorted_snoc (l : list nat) (x : nat) :
  StronglySorted le l -> Forall (fun y => y <= x) l ->
  StronglySorted le (l ++ [x]).
Proof.
  induction 1 as [|a l Hl IH Ha]; intros Hx; simpl.
  - constructor; constructor.
  - inversion Hx; subst. constructor; [apply IH; assumption|].
    apply Forall_app. split; [exact Ha|]. constructor; [assumption|constructor].
Qed.

Lemma StronglySorted_nth (l : list nat) (a b x y : nat) :
  StronglySorted le l -> a < b ->
  nth_error l a = Some x -> nth_error l b = Some y -> x <= y.
Proof.
  intros Hl; revert a b; induction Hl as [|h l Hl IH Hh]; intros a b Hab Ha Hb.
  - destruct a; discriminate.
  - destruct b as [|b]; [lia|]. simpl in Hb.
    destruct a as [|a]; simpl in Ha.
    + inversion Ha; subst h. apply nth_error_In in Hb.
      rewrite Forall_forall in Hh. apply Hh. exact Hb.
    + apply (IH a b); [lia|assumption|assumption].
Qed.

Lemma tokenize_body_lines_inv chars i char self :
  nth_error chars i = Some char ->
  lines_inv self -> lines_inv (snd (tokenize_body chars i self)).
Proof.
  intros Hc [Hs Hb].
  pose proof (tokenize_body_spec chars i char self Hc) as (_ & _ & Hl & Ht & _).
  unfold lines_inv.
  destruct Ht as [->|(tok & -> & Etok)].
  - split; [exact Hs|]. eapply Forall_impl; [|exact Hb].
    simpl; intros; lia.
  - assert (Hb' : Forall (fun t => line t
                            <= self_line (snd (tokenize_body chars i self)))
                    (self_tokens self)).
    { eapply Forall_impl; [|exact Hb]. simpl; intros; lia. }
    split.
    + rewrite map_app. simpl. apply StronglySorted_snoc; [exact Hs|].
      rewrite Forall_map. rewrite Etok. exact Hb'.
    + apply Forall_app. split; [exact Hb'|].
      constructor; [lia|constructor].
Qed.

Lemma tokenize_loop_lines_inv fuel chars i self :
  lines_inv self -> lines_inv (snd (tokenize_loop fuel chars i self)).
Proof.
  revert i self; induction fuel as [|fuel IH]; intros i self Hinv; simpl;
    destruct (i <? length chars) eqn:Ei; simpl; try exact Hinv.
  destruct (in_bounds_char _ _ Ei) as [c Hc].
  pose proof (tokenize_body_lines_inv chars i c self Hc Hinv) as Hinv'.
  unfold bind.
  destruct (tokenize_body chars i self) as [[j|e|] self']; simpl in *.
  - apply IH. exact Hinv'.
  - exact Hinv'.
  - exact Hinv'.
Qed.

(** The buffer and [pos] are never written, and the line counter never
    decreases. *)
Lemma tokenize_loop_frame fuel chars i self :
  self_text (snd (tokenize_loop fuel chars i self)) = self_text self /\
  self_pos (snd (tokenize_loop fuel chars i self)) = self_pos self /\
  self_line self <= self_line (snd (tokenize_loop fuel chars i self)).
Proof.
  revert i self; induction fuel as [|fuel IH]; intros i self; simpl;
    destruct (i <? length chars) eqn:Ei; simpl; auto.
  destruct (in_bounds_char _ _ Ei) as [c Hc].
  pose proof (tokenize_body_spec chars i c self Hc) as (Ht & Hp & Hl & _).
  unfold bind.
  destruct (tokenize_body chars i self) as [[j|e|] self']; simpl in *; auto.
  destruct (IH j self') as (IHt & IHp & IHl).
  rewrite IHt, IHp. repeat split; auto; lia.
Qed.

(** ** Scanning from an object that already holds tokens *)

Lemma bind_incr_line {A} (k : M A) self :
  (_ <- incr_line ;; k) self = k (advance_line 1 self).
Proof. reflexivity. Qed.

Section Rebase.

(** The line counter is [d] higher, and the tokens [kept] are already in
    the list. *)
Variables (d : nat) (kept : list Token).

Lemma rebase_advance_line n self :
  rebase d kept (advance_line n self) = advance_line n (rebase d kept self).
Proof. destruct self; unfold rebase, advance_line; simpl. f_equal. lia. Qed.

Lemma discard_comment_loop_rebase rest i self :
  discard_comment_loop rest i (rebase d kept self)
  = rebase_result (fun j => j) d kept (discard_comment_loop rest i self).
Proof.
  revert i; induction rest as [|c rest IH]; intros i; simpl.
  - reflexivity.
  - destruct (Ascii.eqb c nl); simpl; [reflexivity|apply IH].
Qed.

Lemma scan_loop_rebase kind msg rest i err acc self :
  scan_loop kind msg rest i err acc (rebase d kept self)
  = rebase_result (shift_scanned d) d kept
      (scan_loop kind msg rest i err acc self).
Proof.
  revert i acc; induction rest as [|c rest IH]; intros i acc; simpl.
  - reflexivity.
  - destruct (str_in c err); [reflexivity|].
    destruct (is_terminator c); [reflexivity|apply IH].
Qed.

Lemma read_str_loop_rebase rest i term acc self :
  read_str_loop rest i term acc (rebase d kept self)
  = rebase_result (shift_scanned d) d kept
      (read_str_loop rest i term acc self).
Proof.
  revert i acc self; induction rest as [|c rest IH]; intros i acc self; simpl.
  - reflexivity.
  - destruct (str_in c term); [reflexivity|].
    destruct (Ascii.eqb c nl); [|apply IH].
    rewrite !bind_incr_line, <- rebase_advance_line. apply IH.
Qed.

(** The three branches that call a scanner and append its token. *)
Lemma scanner_branch_rebase (scan : nat -> M (nat * Token)) self :
  (forall l l' s,
     scan l (rebase d kept s)
     = rebase_result (shift_scanned d) d kept (scan l' s)) ->
  (l <- get_line ;;
   '(i', tok) <- scan l ;;
   _ <- tokens_append tok ;;
   ret i') (rebase d kept self)
  = rebase_result (fun j => j) d kept
      ((l <- get_line ;;
        '(i', tok) <- scan l ;;
        _ <- tokens_append tok ;;
        ret i') self).
Proof.
  intros H. unfold bind, get_line.
  rewrite (H _ (self_line self) self).
  destruct (scan (self_line self) self) as [[[j tok]|e|] self'];
    try reflexivity.
  unfold rebase_result, shift_scanned, tokens_append, ret, rebase; simpl.
  rewrite map_app, app_assoc. reflexivity.
Qed.

(** The three branches that append a token of their own. *)
Lemma mark_branch_rebase kind text i self :
  (l <- get_line ;;
   _ <- tokens_append (mkToken kind text l) ;;
   ret (i + 1)) (rebase d kept self)
  = rebase_result (fun j => j) d kept
      ((l <- get_line ;;
        _ <- tokens_append (mkToken kind text l) ;;
        ret (i + 1)) self).
Proof.
  unfold bind, get_line, ret, rebase_result, tokens_append, rebase; simpl.
  rewrite map_app, app_assoc. reflexivity.
Qed.

(** One iteration from the rebased object does what it does from the
    original one, rebased. *)
Lemma tokenize_body_rebase chars i self :
  tokenize_body chars i (rebase d kept self)
  = rebase_result (fun j => j) d kept (tokenize_body chars i self).
Proof.
  unfold tokenize_body.
  destruct (nth_error chars i) as [char|]; [|reflexivity].
  destruct (Ascii.eqb char nl).
  { rewrite !bind_incr_line. unfold ret, rebase_result; simpl.
    rewrite rebase_advance_line. reflexivity. }
  destruct (isspace char); [reflexivity|].
  destruct (Ascii.eqb char ";"); [apply discard_comment_loop_rebase|].
  destruct (Ascii.eqb char "("); [apply mark_branch_rebase|].
  destruct (Ascii.eqb char ")"); [apply mark_branch_rebase|].
  destruct (Ascii.eqb char "'"); [apply mark_branch_rebase|].
  destruct (str_in char atom_start_chars || Ascii.eqb char ".").
  { apply (scanner_branch_rebase
             (fun l =>
                read_atom i l (str_start_chars ++ num_start_chars) chars)).
    intros l l' s. unfold read_atom. rewrite read_atom_loop_scan.
    apply scan_loop_rebase. }
  destruct (str_in char str_start_chars).
  { apply (scanner_branch_rebase
             (fun l => read_str i l (String char "") chars)).
    intros l l' s. unfold read_str.
    destruct (skipn i chars) as [|c rest]; [reflexivity|].
    apply read_str_loop_rebase. }
  destruct (str_in char num_start_chars); [|reflexivity].
  apply (scanner_branch_rebase
           (fun l =>
              read_num i l (atom_start_chars ++ str_start_chars) chars)).
  intros l l' s. unfold read_num. rewrite read_num_loop_scan.
  apply scan_loop_rebase.
Qed.

Lemma tokenize_loop_rebase fuel chars i self :
  tokenize_loop fuel chars i (rebase d kept self)
  = rebase_result (fun u => u) d kept (tokenize_loop fuel chars i self).
Proof.
  revert i self; induction fuel as [|fuel IH]; intros i self; simpl;
    destruct (i <? length chars); try reflexivity.
  unfold bind. rewrite tokenize_body_rebase.
  destruct (tokenize_body chars i self) as [[j|e|] self']; try reflexivity.
  unfold rebase_result; simpl. apply IH.
Qed.

End Rebase.

(** ** Termination of the dispatch loop *)

Lemma tokenize_body_progress chars i char self j self' :
  nth_error chars i = Some char -> classified char = true ->
  tokenize_body chars i self = (Ret j, self') -> i < j.
Proof.
  intros Hc Hcl E.
  pose proof (tokenize_body_spec chars i char self Hc) as (_ & _ & _ & _ & Hr).
  rewrite E in Hr. simpl in Hr. rewrite Hcl in Hr. exact Hr.
Qed.

Lemma tokenize_loop_terminates chars self0 :
  well_scanned chars self0 ->
  forall fuel i self,
    visits chars self0 i self -> length chars - i <= fuel ->
    exists self', tokenize_loop fuel chars i self = (Ret tt, self').
Proof.
  intros Hws. induction fuel as [|fuel IH]; intros i self Hv Hfuel.
  - exists self. apply tokenize_loop_exit. lia.
  - destruct (Nat.lt_ge_cases i (length chars)) as [Hi|Hi].
    + destruct (Hws i self Hv Hi) as (c & j & self' & Hc & Hcl & E).
      rewrite (tokenize_loop_step _ _ _ _ Hi), E.
      pose proof (tokenize_body_progress _ _ _ _ _ _ Hc Hcl E) as Hlt.
      apply IH; [|lia].
      eapply visits_next; eassumption.
    + exists self. apply tokenize_loop_exit. exact Hi.
Qed.

(** On a character without a rule the iteration changes nothing, and the
    loop spins in place. *)
Lemma tokenize_body_unclassified chars i char self :
  nth_error chars i = Some char -> classified char = false ->
  tokenize_body chars i self = (Ret i, self).
Proof.
  intros Hc Hcl. unfold tokenize_body. rewrite Hc. unfold classified in Hcl.
  repeat match type of Hcl with
         | _ || _ = false =>
             let H := fresh "H" in
             apply orb_false_iff in Hcl; destruct Hcl as [Hcl H]; rewrite H
         end.
  rewrite Hcl. reflexivity.
Qed.

Lemma tokenize_loop_spins chars i char self :
  nth_error chars i = Some char -> classified char = false ->
  forall fuel, tokenize_loop fuel chars i self = (Diverge, self).
Proof.
  intros Hc Hcl.
  assert (Hi : i < length chars).
  { apply nth_error_Some. rewrite Hc. discriminate. }
  induction fuel as [|fuel IH].
  - simpl. apply Nat.ltb_lt in Hi. rewrite Hi. reflexivity.
  - rewrite (tokenize_loop_step _ _ _ _ Hi).
    rewrite (tokenize_body_unclassified _ _ _ _ Hc Hcl). exact IH.
Qed.

(** * The claims *)

(** ** C1: the line of a string token *)

Lemma str_in_dquote c : str_in c str_start_chars = Ascii.eqb c dquote.
Proof. simpl. apply orb_false_r. Qed.

(** C1, the code at the failing input: scanning [hello_world], a string
    literal with one newline inside, yields a single [STR] token whose line
    is 2, the line of the closing quote, and not 1, the line the scan began
    on. *)
Lemma hello_world_token_line_2 :
  tokenize 13 (Lexer_init hello_world)
  = (Ret [mkToken STR hello_world 2],
     {| self_text := hello_world; self_pos := 0; self_line := 2;
        self_tokens := [mkToken STR hello_world 2] |}).
Proof. reflexivity. Qed.

(** C1, what the code does where the claim asks for the line the scan began
    on: [read_str] never reads [line_num], the counter at the call that
    [tokenize] hands it; the [STR] token carries the value the line counter
    holds when the closing quote is read, which is the counter at the call
    plus the number of newlines inside the literal, and so differs from
    [line_num] as soon as the literal holds a newline.  Scanning
    [hello_world] yields one [STR] token with the whole literal as text and
    line 2, where the claim says 1; the line counter is 2 after the
    call. *)
Theorem read_str_stamps_closing_line :
  (forall chars i line_num self j tok self',
     read_str i line_num str_start_chars chars self = (Ret (j, tok), self') ->
     exists c body post,
       skipn i chars = (c :: body ++ dquote :: post)%list /\
       ~ In dquote body /\
       j = i + length body + 2 /\
       tok = mkToken STR (string_of_list_ascii (c :: body ++ [dquote]))
               (self_line self + count_nl body) /\
       self' = advance_line (count_nl body) self /\
       line tok = self_line self' /\
       (line_num = self_line self ->
        (line tok = line_num <-> count_nl body = 0))) /\
  exists self',
    tokenize 13 (Lexer_init hello_world)
    = (Ret [mkToken STR hello_world 2], self') /\
    self_line self' = 2.
Proof.
  split.
  - intros chars i line_num self j tok self' E. unfold read_str in E.
    destruct (skipn i chars) as [|c rest] eqn:Es; [discriminate E|].
    pose proof (read_str_loop_spec rest (i + 1) str_start_chars
                  (add_char "" c) self) as Hr.
    rewrite E in Hr.
    destruct Hr as (body & d & post & -> & Hbody & Hd & -> & -> & ->).
    rewrite str_in_dquote in Hd. apply Ascii.eqb_eq in Hd. subst d.
    exists c, body, post. split; [reflexivity|]. split.
    { intros Hin. rewrite Forall_forall in Hbody.
      specialize (Hbody _ Hin). rewrite str_in_dquote in Hbody.
      rewrite Ascii.eqb_refl in Hbody. discriminate. }
    split; [lia|]. split; [reflexivity|]. split; [reflexivity|].
    split; [reflexivity|]. simpl. intros ->. lia.
  - eexists. split; reflexivity.
Qed.

Lemma read_str_stamps_closing_line_witness :
  exists c body post,
    skipn 0 (list_ascii_of_string hello_world)
    = (c :: body ++ dquote :: post)%list /\
    ~ In dquote body /\
    13 = 0 + length body + 2 /\
    mkToken STR hello_world 2
    = mkToken STR (string_of_list_ascii (c :: body ++ [dquote]))
        (self_line (Lexer_init hello_world) + count_nl body) /\
    advance_line 1 (Lexer_init hello_world)
    = advance_line (count_nl body) (Lexer_init hello_world) /\
    line (mkToken STR hello_world 2)
    = self_line (advance_line 1 (Lexer_init hello_world)) /\
    (1 = self_line (Lexer_init hello_world) ->
     (line (mkToken STR hello_world 2) = 1 <-> count_nl body = 0)).
Proof.
  apply (proj1 read_str_stamps_closing_line
           (list_ascii_of_string hello_world) 0 1 (Lexer_init hello_world)).
  reflexivity.
Defined.

(** ** C2 and C3: the buffers [42] and [4a] *)

(** C2, as the code has it: on the two-character buffer [42] the number
    scanner reads [chars[2]], past the end, and [tokenize] raises
    [IndexError]: no token sequence is returned. *)
Lemma num_42_index_error :
  tokenize 2 (Lexer_init "42") = (Raise IndexError, Lexer_init "42").
Proof. reflexivity. Qed.

(** C2, amended: the buffer [42] followed by one whitespace character yields
    exactly one [NUM] token with text [42], on line 1; on the exact
    two-character buffer [42] the number scanner runs past the end of the
    buffer, and [tokenize] raises [IndexError] and returns no sequence,
    however many iterations it is allowed. *)
Theorem num_42_needs_terminator :
  (forall c, isspace c = true ->
     fst (tokenize 3 (Lexer_init ("42" ++ String c "")))
     = Ret [mkToken NUM "42" 1]) /\
  tokenize 2 (Lexer_init "42") = (Raise IndexError, Lexer_init "42") /\
  (forall fuel toks self',
     tokenize fuel (Lexer_init "42") <> (Ret toks, self')).
Proof.
  split; [|split].
  - intros c H.
    destruct c as [[] [] [] [] [] [] [] []];
      try (vm_compute in H; discriminate H); reflexivity.
  - reflexivity.
  - intros [|fuel] toks self' H; vm_compute in H; discriminate H.
Qed.

Lemma num_42_needs_terminator_witness :
  fst (tokenize 3 (Lexer_init ("42" ++ String nl "")))
  = Ret [mkToken NUM "42" 1].
Proof.
  apply (proj1 num_42_needs_terminator nl). reflexivity.
Defined.

(** C3, as the code has it: on the two-character buffer [4a] the number
    scanner emits the [ERR] token and leaves the cursor on [a]; the atom
    scanner then reads past the end, and [tokenize] raises [IndexError]: no
    token sequence is returned. *)
Lemma num_4a_index_error :
  tokenize 2 (Lexer_init "4a")
  = (Raise IndexError,
     {| self_text := "4a"; self_pos := 0; self_line := 1;
        self_tokens := [mkToken ERR num_msg 1] |}).
Proof. reflexivity. Qed.

(** C3, amended: scanning [4a] first emits an [ERR] token with the message
    "Numbers cannot contain anything other than numerals and periods" and
    leaves the cursor on [a], which the dispatcher then scans as an atom.
    With one whitespace character after it the sequence returned is that
    [ERR] token followed by the [ATOM] token [a]; on the exact two-character
    buffer the atom scan runs past the end of the buffer, [tokenize] raises
    [IndexError] with the [ERR] token alone in the list, and returns no
    sequence. *)
Theorem num_4a_err_then_atom :
  read_num 0 1 (atom_start_chars ++ str_start_chars)
    (list_ascii_of_string "4a") (Lexer_init "4a")
  = (Ret (1, mkToken ERR num_msg 1), Lexer_init "4a") /\
  (forall c, isspace c = true ->
     fst (tokenize 3 (Lexer_init ("4a" ++ String c "")))
     = Ret [mkToken ERR num_msg 1; mkToken ATOM "a" 1]) /\
  tokenize 2 (Lexer_init "4a")
  = (Raise IndexError,
     {| self_text := "4a"; self_pos := 0; self_line := 1;
        self_tokens := [mkToken ERR num_msg 1] |}) /\
  (forall fuel toks self',
     tokenize fuel (Lexer_init "4a") <> (Ret toks, self')).
Proof.
  split; [reflexivity|]. split; [|split].
  - intros c H.
    destruct c as [[] [] [] [] [] [] [] []];
      try (vm_compute in H; discriminate H); reflexivity.
  - reflexivity.
  - intros [|[|fuel]] toks self' H; vm_compute in H; discriminate H.
Qed.

Lemma num_4a_err_then_atom_witness :
  fst (tokenize 3 (Lexer_init ("4a" ++ String " " "")))
  = Ret [mkToken ERR num_msg 1; mkToken ATOM "a" 1].
Proof.
  apply (proj1 (proj2 num_4a_err_then_atom) " "%char). reflexivity.
Defined.

(** ** C4: no hard failure *)

Lemma tokenize_raises fuel self e :
  fst (tokenize fuel self) = Raise e -> e = IndexError.
Proof.
  unfold tokenize, bind.
  pose proof (tokenize_loop_raises fuel
                (list_ascii_of_string (self_text self)) 0 self e) as H.
  destruct (tokenize_loop fuel (list_ascii_of_string (self_text self)) 0 self)
    as [[u|e'|] self']; simpl in *; try discriminate.
  intros [= <-]. apply H. reflexivity.
Qed.

(** The alphabets of [tokenize] are disjoint from the characters its
    earlier branches take. *)
Lemma atom_start_dispatch c :
  str_in c atom_start_chars || Ascii.eqb c "." = true ->
  Ascii.eqb c nl = false /\ isspace c = false /\ Ascii.eqb c ";" = false /\
  Ascii.eqb c "(" = false /\ Ascii.eqb c ")" = false /\
  Ascii.eqb c "'" = false.
Proof.
  destruct c as [[] [] [] [] [] [] [] []]; vm_compute; intros H;
    first [repeat split; reflexivity | discriminate H].
Qed.

Lemma num_start_dispatch c :
  str_in c num_start_chars = true ->
  Ascii.eqb c nl = false /\ isspace c = false /\ Ascii.eqb c ";" = false /\
  Ascii.eqb c "(" = false /\ Ascii.eqb c ")" = false /\
  Ascii.eqb c "'" = false /\
  str_in c atom_start_chars || Ascii.eqb c "." = false /\
  str_in c str_start_chars = false.
Proof.
  destruct c as [[] [] [] [] [] [] [] []]; vm_compute; intros H;
    first [repeat split; reflexivity | discriminate H].
Qed.

(** The common loop of [read_atom] and [read_num], from the buffer to the
    [ERR] answer: it is given on the first error character that only
    accumulated characters precede. *)
Lemma scan_loop_to_error kind msg chars err self c :
  forall n i j acc,
    j = i + n -> nth_error chars j = Some c -> str_in c err = true ->
    (forall k, i <= k < j ->
       exists x, nth_error chars k = Some x /\ accumulated err x) ->
    scan_loop kind msg (skipn i chars) i err acc self
    = (Ret (j, mkToken ERR msg (self_line self)), self).
Proof.
  induction n as [|n IH]; intros i j acc -> Hj Herr Hbefore.
  - rewrite Nat.add_0_r in *.
    rewrite (nth_error_skipn_cons _ _ _ Hj). simpl. rewrite Herr.
    reflexivity.
  - destruct (Hbefore i) as (x & Ex & Hx1 & Hx2); [lia|].
    rewrite (nth_error_skipn_cons _ _ _ Ex). simpl. rewrite Hx1, Hx2.
    apply (IH (i + 1) (i + S n)); [lia|exact Hj|exact Herr|].
    intros k Hk. apply Hbefore. lia.
Qed.

(** The object with one more token in its list. *)
Definition with_token (tok : Token) (self : Lexer) : Lexer :=
  {| self_text := self_text self; self_pos := self_pos self;
     self_line := self_line self;
     self_tokens := self_tokens self ++ [tok] |}.

(** Whatever the loop does after a token is in the list, the token stays
    in it. *)
Lemma tokenize_loop_keeps fuel chars i self tok :
  In tok (self_tokens self) ->
  In tok (self_tokens (snd (tokenize_loop fuel chars i self))).
Proof.
  revert i self; induction fuel as [|fuel IH]; intros i self Hin; simpl;
    destruct (i <? length chars) eqn:Ei; simpl; try exact Hin.
  destruct (in_bounds_char _ _ Ei) as [c Hc].
  pose proof (tokenize_body_spec chars i c self Hc) as (_ & _ & _ & Ht & _).
  assert (Hin' : In tok (self_tokens (snd (tokenize_body chars i self)))).
  { destruct Ht as [->|(tok' & -> & _)]; [exact Hin|].
    apply in_or_app. left. exact Hin. }
  unfold bind.
  destruct (tokenize_body chars i self) as [[j|e|] self']; simpl in *;
    [apply IH; exact Hin'|exact Hin'|exact Hin'].
Qed.

(** C4: whatever the buffer and the state of the object, [tokenize] never
    ends in a hard failure: the only exception it lets out is the
    [IndexError] of a read past the end of the buffer, never a [ValueError],
    and so never what [Lexer.error] raises.  A malformed atom (an atom in
    which a digit or a double quote follows accumulated characters) and a
    malformed number (a number in which a letter, an atom symbol or a double
    quote follows accumulated characters) are reported inline: the iteration
    that scans them returns, with the cursor on the offending character and
    the [ERR] token of the scanner appended to the list, nothing else of the
    object being changed; the loop goes on from that cursor, and the [ERR]
    token is in the list however the scan ends. *)
Theorem tokenize_never_hard_fails :
  forall fuel self,
    (forall e, fst (tokenize fuel self) = Raise e -> e = IndexError) /\
    (forall message self0,
       fst (tokenize fuel self) <> fst (error (A:=list Token) message self0)) /\
    (forall chars i char j c,
       nth_error chars i = Some char ->
       str_in char atom_start_chars || Ascii.eqb char "." = true ->
       i <= j -> nth_error chars j = Some c ->
       str_in c (str_start_chars ++ num_start_chars) = true ->
       (forall k, i <= k < j ->
          exists x, nth_error chars k = Some x /\
                    accumulated (str_start_chars ++ num_start_chars) x) ->
       let tok := mkToken ERR "Atoms cannot contain quotes or numbers"
                    (self_line self) in
       tokenize_body chars i self = (Ret j, with_token tok self) /\
       tokenize_loop (S fuel) chars i self
       = tokenize_loop fuel chars j (with_token tok self) /\
       In tok (self_tokens (snd (tokenize_loop (S fuel) chars i self)))) /\
    (forall chars i char j c,
       nth_error chars i = Some char ->
       str_in char num_start_chars = true ->
       i <= j -> nth_error chars j = Some c ->
       str_in c (atom_start_chars ++ str_start_chars) = true ->
       (forall k, i <= k < j ->
          exists x, nth_error chars k = Some x /\
                    accumulated (atom_start_chars ++ str_start_chars) x) ->
       let tok := mkToken ERR
                    "Numbers cannot contain anything other than numerals and periods"
                    (self_line self) in
       tokenize_body chars i self = (Ret j, with_token tok self) /\
       tokenize_loop (S fuel) chars i self
       = tokenize_loop fuel chars j (with_token tok self) /\
       In tok (self_tokens (snd (tokenize_loop (S fuel) chars i self)))).
Proof.
  intros fuel self. split; [|split; [|split]].
  - intros e. apply tokenize_raises.
  - intros message self0 H. apply tokenize_raises in H. discriminate H.
  - intros chars i char j c Hc Hstart Hij Hj Herr Hbefore tok.
    assert (Hi : i < length chars) by (apply nth_error_Some; congruence).
    assert (Eb : tokenize_body chars i self = (Ret j, with_token tok self)).
    { unfold tokenize_body. rewrite Hc.
      destruct (atom_start_dispatch char Hstart)
        as (E1 & E2 & E3 & E4 & E5 & E6).
      rewrite E1, E2, E3, E4, E5, E6, Hstart.
      unfold bind at 1, get_line at 1, bind at 1, read_atom.
      rewrite read_atom_loop_scan.
      rewrite (scan_loop_to_error ATOM atom_msg chars _ self c (j - i) i j);
        [reflexivity|lia|exact Hj|exact Herr|exact Hbefore]. }
    split; [exact Eb|].
    rewrite (tokenize_loop_step _ _ _ _ Hi), Eb. split; [reflexivity|].
    apply tokenize_loop_keeps. simpl. apply in_or_app. right. left.
    reflexivity.
  - intros chars i char j c Hc Hstart Hij Hj Herr Hbefore tok.
    assert (Hi : i < length chars) by (apply nth_error_Some; congruence).
    assert (Eb : tokenize_body chars i self = (Ret j, with_token tok self)).
    { unfold tokenize_body. rewrite Hc.
      destruct (num_start_dispatch char Hstart)
        as (E1 & E2 & E3 & E4 & E5 & E6 & E7 & E8).
      rewrite E1, E2, E3, E4, E5, E6, E7, E8, Hstart.
      unfold bind at 1, get_line at 1, bind at 1, read_num.
      rewrite read_num_loop_scan.
      rewrite (scan_loop_to_error NUM num_msg chars _ self c (j - i) i j);
        [reflexivity|lia|exact Hj|exact Herr|exact Hbefore]. }
    split; [exact Eb|].
    rewrite (tokenize_loop_step _ _ _ _ Hi), Eb. split; [reflexivity|].
    apply tokenize_loop_keeps. simpl. apply in_or_app. right. left.
    reflexivity.
Qed.

Lemma tokenize_never_hard_fails_witness :
  let chars := list_ascii_of_string "a1 " in
  let tok := mkToken ERR "Atoms cannot contain quotes or numbers"
               (self_line (Lexer_init "a1 ")) in
  tokenize_body chars 0 (Lexer_init "a1 ")
  = (Ret 1, with_token tok (Lexer_init "a1 ")) /\
  tokenize_loop 3 chars 0 (Lexer_init "a1 ")
  = tokenize_loop 2 chars 1 (with_token tok (Lexer_init "a1 ")) /\
  In tok (self_tokens (snd (tokenize_loop 3 chars 0 (Lexer_init "a1 ")))).
Proof.
  apply (proj1 (proj2 (proj2 (tokenize_never_hard_fails 2 (Lexer_init "a1 "))))
           (list_ascii_of_string "a1 ") 0 "a"%char 1 "1"%char).
  - reflexivity.
  - reflexivity.
  - lia.
  - reflexivity.
  - reflexivity.
  - intros k Hk. assert (k = 0) by lia. subst k.
    eexists. repeat split.
Defined.

(** ** C5: the cursor on an error path *)

(** An [ERR] answer of the common loop: the object is untouched, the token
    carries the diagnostic, the cursor is the index of an error character,
    and every character from the start to the cursor was accumulated. *)
Lemma scan_loop_error_cursor kind msg chars i err self j tok self' :
  kind <> ERR ->
  scan_loop kind msg (skipn i chars) i err "" self = (Ret (j, tok), self') ->
  type tok = ERR ->
  self' = self /\ tok = mkToken ERR msg (self_line self) /\ i <= j /\
  (exists c, nth_error chars j = Some c /\ str_in c err = true) /\
  (forall k, i <= k < j ->
     exists x, nth_error chars k = Some x /\ accumulated err x).
Proof.
  intros Hkind E Htype.
  pose proof (scan_loop_spec kind msg (skipn i chars) i err "" self) as [Hs Hr].
  rewrite E in Hs, Hr. simpl in Hs, Hr.
  destruct Hr as (pre & c & post & Hrest & Hpre & -> & Hc).
  destruct Hc as [[Hc ->]|(_ & _ & ->)]; [|simpl in Htype; contradiction].
  split; [exact Hs|]. split; [reflexivity|]. split; [lia|]. split.
  - exists c. split; [|exact Hc]. apply (nth_error_in_suffix _ _ post). exact Hrest.
  - intros k Hk.
    assert (Hlt : k - i < length pre) by lia.
    destruct (nth_error pre (k - i)) as [x|] eqn:Ex;
      [|apply nth_error_None in Ex; lia].
    exists x. split.
    + replace k with (i + (k - i)) by lia.
      rewrite (nth_error_in_prefix chars pre (c :: post) i (k - i) Hrest Hlt).
      exact Ex.
    + rewrite Forall_forall in Hpre. apply Hpre.
      eapply nth_error_In. exact Ex.
Qed.

(** C5: when [read_atom] or [read_num] answers with an [ERR] token, the
    cursor it hands back is the index of the offending character, a
    character of its error set, and not the index after it; every character
    scanned before was accumulated; the token carries the scanner's
    diagnostic and the object is untouched.  And the loop of either scanner,
    reading a character of its error set at the index [i], answers at once
    with the cursor [i] and the [ERR] token. *)
Theorem error_cursor_on_offending_char :
  (forall chars i char atom_err_chars atom_str self,
     nth_error chars i = Some char -> str_in char atom_err_chars = true ->
     read_atom_loop (skipn i chars) i atom_err_chars atom_str self
     = (Ret (i, mkToken ERR "Atoms cannot contain quotes or numbers"
                  (self_line self)), self))
  /\
  (forall chars i char num_error_chars num_str self,
     nth_error chars i = Some char -> str_in char num_error_chars = true ->
     read_num_loop (skipn i chars) i num_error_chars num_str self
     = (Ret (i, mkToken ERR
                  "Numbers cannot contain anything other than numerals and periods"
                  (self_line self)), self))
  /\
  (forall i line_num atom_err_chars chars self j tok self',
     read_atom i line_num atom_err_chars chars self = (Ret (j, tok), self') ->
     type tok = ERR ->
     self' = self /\
     tok = mkToken ERR "Atoms cannot contain quotes or numbers" (self_line self) /\
     i <= j /\
     (exists c, nth_error chars j = Some c /\ str_in c atom_err_chars = true) /\
     (forall k, i <= k < j ->
        exists x, nth_error chars k = Some x /\ accumulated atom_err_chars x))
  /\
  (forall i line_num num_error_chars chars self j tok self',
     read_num i line_num num_error_chars chars self = (Ret (j, tok), self') ->
     type tok = ERR ->
     self' = self /\
     tok = mkToken ERR
             "Numbers cannot contain anything other than numerals and periods"
             (self_line self) /\
     i <= j /\
     (exists c, nth_error chars j = Some c /\ str_in c num_error_chars = true) /\
     (forall k, i <= k < j ->
        exists x, nth_error chars k = Some x /\ accumulated num_error_chars x)).
Proof.
  split; [|split; [|split]].
  - intros chars i char err acc self Hc Herr.
    rewrite read_atom_loop_at, Hc, Herr. reflexivity.
  - intros chars i char err acc self Hc Herr.
    rewrite read_num_loop_at, Hc, Herr. reflexivity.
  - intros i line_num err chars self j tok self' E Htype.
    unfold read_atom in E. rewrite read_atom_loop_scan in E.
    apply (scan_loop_error_cursor ATOM atom_msg chars i err self j tok self');
      [discriminate|exact E|exact Htype].
  - intros i line_num err chars self j tok self' E Htype.
    unfold read_num in E. rewrite read_num_loop_scan in E.
    apply (scan_loop_error_cursor NUM num_msg chars i err self j tok self');
      [discriminate|exact E|exact Htype].
Qed.

Lemma error_cursor_on_offending_char_witness :
  Lexer_init "ab1 " = Lexer_init "ab1 " /\
  mkToken ERR atom_msg 1
  = mkToken ERR "Atoms cannot contain quotes or numbers"
      (self_line (Lexer_init "ab1 ")) /\
  0 <= 2 /\
  (exists c, nth_error (list_ascii_of_string "ab1 ") 2 = Some c /\
             str_in c (str_start_chars ++ num_start_chars) = true) /\
  (forall k, 0 <= k < 2 ->
     exists x, nth_error (list_ascii_of_string "ab1 ") k = Some x /\
               accumulated (str_start_chars ++ num_start_chars) x).
Proof.
  apply (proj1 (proj2 (proj2 error_cursor_on_offending_char)) 0 1
           (str_start_chars ++ num_start_chars)
           (list_ascii_of_string "ab1 ") (Lexer_init "ab1 ")).
  - reflexivity.
  - reflexivity.
Defined.

(** ** C6: a comment, then a list *)

(** C6: scanning [comment_then_list] yields [(], [a] and [)], each on line
    2.  The comment skipper stops on the newline, at index 9, and leaves the
    object as it was; the iteration that follows is the newline rule, which
    moves the line counter from 1 to 2. *)
Theorem comment_then_list_tokens :
  tokenize 13 (Lexer_init comment_then_list)
  = (Ret [mkToken PAREN_OPEN "(" 2; mkToken ATOM "a" 2;
          mkToken PAREN_CLOSE ")" 2],
     {| self_text := comment_then_list; self_pos := 0; self_line := 2;
        self_tokens := [mkToken PAREN_OPEN "(" 2; mkToken ATOM "a" 2;
                        mkToken PAREN_CLOSE ")" 2] |}) /\
  discard_comment 0 (list_ascii_of_string comment_then_list)
    (Lexer_init comment_then_list)
  = (Ret 9, Lexer_init comment_then_list) /\
  nth_error (list_ascii_of_string comment_then_list) 9 = Some nl /\
  tokenize_body (list_ascii_of_string comment_then_list) 9
    (Lexer_init comment_then_list)
  = (Ret 10, advance_line 1 (Lexer_init comment_then_list)).
Proof. repeat split. Qed.

(** ** C7: the lines of the tokens never go down *)

Lemma tokenize_lines_inv fuel self :
  lines_inv self -> lines_inv (snd (tokenize fuel self)).
Proof.
  intros Hinv. unfold tokenize, bind.
  pose proof (tokenize_loop_lines_inv fuel
                (list_ascii_of_string (self_text self)) 0 self Hinv) as H.
  destruct (tokenize_loop fuel (list_ascii_of_string (self_text self)) 0 self)
    as [[u|e|] self']; exact H.
Qed.

Lemma tokenize_returns_tokens fuel self toks self' :
  tokenize fuel self = (Ret toks, self') -> toks = self_tokens self'.
Proof.
  unfold tokenize, bind.
  destruct (tokenize_loop fuel (list_ascii_of_string (self_text self)) 0 self)
    as [[u|e|] s]; intros [= <- <-]. reflexivity.
Qed.

(** C7: in the sequence [tokenize] returns for a fresh [Lexer], a token's
    line is at least the line of every token before it. *)
Theorem tokenize_lines_monotone :
  forall text fuel toks self',
    tokenize fuel (Lexer_init text) = (Ret toks, self') ->
    forall a b ta tb,
      a < b -> nth_error toks a = Some ta -> nth_error toks b = Some tb ->
      line ta <= line tb.
Proof.
  intros text fuel toks self' E a b ta tb Hab Ha Hb.
  assert (Hinv : lines_inv (Lexer_init text)).
  { split; simpl; constructor. }
  apply (tokenize_lines_inv fuel) in Hinv.
  rewrite (tokenize_returns_tokens _ _ _ _ E) in Ha, Hb.
  rewrite E in Hinv. simpl in Hinv. destruct Hinv as [Hs _].
  apply (StronglySorted_nth (map line (self_tokens self')) a b);
    [exact Hs|exact Hab| |]; rewrite nth_error_map.
  - rewrite Ha. reflexivity.
  - rewrite Hb. reflexivity.
Qed.

Lemma tokenize_lines_monotone_witness :
  line (mkToken PAREN_OPEN "(" 1) <= line (mkToken PAREN_CLOSE ")" 2).
Proof.
  apply (tokenize_lines_monotone ("(" ++ String nl ")") 3
           [mkToken PAREN_OPEN "(" 1; mkToken PAREN_CLOSE ")" 2]
           {| self_text := "(" ++ String nl ")"; self_pos := 0; self_line := 2;
              self_tokens := [mkToken PAREN_OPEN "(" 1;
                              mkToken PAREN_CLOSE ")" 2] |}
           eq_refl 0 1).
  - lia.
  - reflexivity.
  - reflexivity.
Defined.

(** ** C8: the answer depends on the buffer alone *)

Lemma tokenize_fuel_mono fuel fuel' self :
  fuel <= fuel' ->
  fst (tokenize fuel self) <> Diverge ->
  tokenize fuel' self = tokenize fuel self.
Proof.
  intros Hle Hnd. unfold tokenize, bind in *.
  rewrite (tokenize_loop_fuel_mono fuel fuel' _ 0 self Hle); [reflexivity|].
  intros Hd. apply Hnd.
  destruct (tokenize_loop fuel (list_ascii_of_string (self_text self)) 0 self)
    as [[u|e|] s]; simpl in *; try discriminate. reflexivity.
Qed.

(** Two runs from the fresh object that return, return the same, however
    many iterations each was allowed. *)
Lemma tokenize_fresh_deterministic :
  forall text fuel1 fuel2 toks1 toks2 self1 self2,
    tokenize fuel1 (Lexer_init text) = (Ret toks1, self1) ->
    tokenize fuel2 (Lexer_init text) = (Ret toks2, self2) ->
    toks1 = toks2 /\ self1 = self2.
Proof.
  intros text fuel1 fuel2 toks1 toks2 self1 self2 E1 E2.
  destruct (Nat.le_ge_cases fuel1 fuel2) as [H|H].
  - rewrite (tokenize_fuel_mono fuel1 fuel2 _ H) in E2.
    + rewrite E1 in E2. inversion E2. split; reflexivity.
    + rewrite E1. discriminate.
  - rewrite (tokenize_fuel_mono fuel2 fuel1 _ H) in E1.
    + rewrite E2 in E1. inversion E1. split; reflexivity.
    + rewrite E2. discriminate.
Qed.

(** *** Lists updated by index *)

Lemma nth_set_nth_eq {A} (l : list A) n x d :
  n < length l -> nth n (Heap.set_nth n x l) d = x.
Proof.
  revert n; induction l as [|h t IH]; intros n Hn; simpl in *; [lia|].
  destruct n as [|n]; [reflexivity|]. simpl. apply IH. lia.
Qed.

Lemma nth_set_nth_neq {A} (l : list A) n m x d :
  n <> m -> nth m (Heap.set_nth n x l) d = nth m l d.
Proof.
  revert n m; induction l as [|h t IH]; intros n m Hnm; simpl;
    [reflexivity|].
  destruct n as [|n]; destruct m as [|m]; simpl; try reflexivity; try lia.
  apply IH. lia.
Qed.

Lemma length_set_nth {A} (l : list A) n x :
  length (Heap.set_nth n x l) = length l.
Proof.
  revert n; induction l as [|h t IH]; intros n; simpl; [reflexivity|].
  destruct n as [|n]; simpl; [reflexivity|]. f_equal. apply IH.
Qed.

Lemma set_nth_set_nth {A} (l : list A) n x y :
  Heap.set_nth n y (Heap.set_nth n x l) = Heap.set_nth n y l.
Proof.
  revert n; induction l as [|h t IH]; intros n; simpl; [reflexivity|].
  destruct n as [|n]; simpl; [reflexivity|]. f_equal. apply IH.
Qed.

Lemma set_nth_nth {A} (l : list A) n d :
  Heap.set_nth n (nth n l d) l = l.
Proof.
  revert n; induction l as [|h t IH]; intros n; simpl; [reflexivity|].
  destruct n as [|n]; simpl; [reflexivity|]. f_equal. apply IH.
Qed.

(** *** The instance and the object *)

Lemma instance_at_put st self s :
  valid st self ->
  Heap.instance_at (put st self s) self
  = Heap.mkInstance (self_text s) (self_pos s) (self_line s)
      (Heap.tokens (Heap.instance_at st self)).
Proof.
  intros [Hself _]. unfold Heap.instance_at at 1, put. simpl.
  apply nth_set_nth_eq. exact Hself.
Qed.

Lemma view_put st self s : valid st self -> view (put st self s) self = s.
Proof.
  intros Hv. unfold view. rewrite (instance_at_put _ _ _ Hv). simpl.
  unfold Heap.list_at, put. simpl.
  rewrite nth_set_nth_eq by apply Hv. destruct s; reflexivity.
Qed.

Lemma valid_put st self s : valid st self -> valid (put st self s) self.
Proof.
  intros Hv. split.
  - unfold put; simpl. rewrite length_set_nth. apply Hv.
  - rewrite (instance_at_put _ _ _ Hv). unfold put; simpl.
    rewrite length_set_nth. apply Hv.
Qed.

Lemma put_put st self s1 s2 :
  valid st self -> put (put st self s1) self s2 = put st self s2.
Proof.
  intros Hv. unfold put at 1. rewrite (instance_at_put _ _ _ Hv).
  unfold put; simpl. rewrite !set_nth_set_nth. reflexivity.
Qed.

Lemma set_nth_same_instance st self :
  Heap.set_nth self
    (Heap.mkInstance (Heap.text (Heap.instance_at st self))
       (Heap.pos (Heap.instance_at st self))
       (Heap.line (Heap.instance_at st self))
       (Heap.tokens (Heap.instance_at st self)))
    (Heap.instances st)
  = Heap.instances st.
Proof.
  replace (Heap.mkInstance (Heap.text (Heap.instance_at st self))
             (Heap.pos (Heap.instance_at st self))
             (Heap.line (Heap.instance_at st self))
             (Heap.tokens (Heap.instance_at st self)))
    with (Heap.instance_at st self)
    by (destruct (Heap.instance_at st self); reflexivity).
  apply set_nth_nth.
Qed.

Lemma put_view st self : put st self (view st self) = st.
Proof.
  unfold put, view; simpl. rewrite set_nth_same_instance.
  unfold Heap.list_at. rewrite set_nth_nth. destruct st; reflexivity.
Qed.

(** *** The methods of the store do what the methods of the object do *)

Lemma sim_ret {A} self (a : A) : simulates self (Heap.ret a) (ret a).
Proof. intros st _. unfold lift, ret, Heap.ret; simpl. now rewrite put_view. Qed.

Lemma sim_raise {A} self e :
  simulates self (Heap.raise (A:=A) e) (raise e).
Proof. intros st _. unfold lift, raise, Heap.raise; simpl. now rewrite put_view. Qed.

Lemma sim_bind {A B} self (mh : Heap.H A) (m : M A)
    (kh : A -> Heap.H B) (k : A -> M B) :
  simulates self mh m -> (forall a, simulates self (kh a) (k a)) ->
  simulates self (Heap.bind mh kh) (bind m k).
Proof.
  intros Hm Hk st Hv. unfold Heap.bind. rewrite (Hm st Hv).
  unfold lift, bind.
  destruct (m (view st self)) as [[a|e|] s']; simpl; try reflexivity.
  rewrite (Hk a _ (valid_put st self s' Hv)). unfold lift.
  rewrite (view_put _ _ _ Hv), (put_put _ _ _ _ Hv). reflexivity.
Qed.

Lemma sim_get_line self : simulates self (Heap.get_line self) get_line.
Proof.
  intros st _. unfold lift, get_line, Heap.get_line; simpl.
  now rewrite put_view.
Qed.

Lemma sim_incr_line self : simulates self (Heap.incr_line self) incr_line.
Proof.
  intros st _. unfold lift, incr_line, Heap.incr_line, put, view; simpl.
  unfold Heap.list_at. rewrite set_nth_nth. reflexivity.
Qed.

Lemma sim_tokens_append self tok :
  simulates self (Heap.tokens_append self tok) (tokens_append tok).
Proof.
  intros st _. unfold lift, tokens_append, Heap.tokens_append; simpl.
  unfold put; simpl. rewrite set_nth_same_instance. reflexivity.
Qed.

Lemma sim_discard_comment_loop self rest :
  forall i,
    simulates self (Heap.discard_comment_loop self rest i)
      (discard_comment_loop rest i).
Proof.
  induction rest as [|c rest IH]; intros i; simpl.
  - apply sim_raise.
  - destruct (negb (Ascii.eqb c nl)); [apply IH|apply sim_ret].
Qed.

Lemma sim_read_atom_loop self rest err :
  forall i acc,
    simulates self (Heap.read_atom_loop self rest i err acc)
      (read_atom_loop rest i err acc).
Proof.
  induction rest as [|c rest IH]; intros i acc; simpl.
  - apply sim_raise.
  - destruct (str_in c err).
    { apply sim_bind; [apply sim_get_line|intros l; apply sim_ret]. }
    destruct (isspace c || _).
    { apply sim_bind; [apply sim_get_line|intros l; apply sim_ret]. }
    apply IH.
Qed.

Lemma sim_read_num_loop self rest err :
  forall i acc,
    simulates self (Heap.read_num_loop self rest i err acc)
      (read_num_loop rest i err acc).
Proof.
  induction rest as [|c rest IH]; intros i acc; simpl.
  - apply sim_raise.
  - destruct (str_in c err).
    { apply sim_bind; [apply sim_get_line|intros l; apply sim_ret]. }
    destruct (isspace c || _).
    { apply sim_bind; [apply sim_get_line|intros l; apply sim_ret]. }
    apply IH.
Qed.

Lemma sim_read_str_loop self rest term :
  forall i acc,
    simulates self (Heap.read_str_loop self rest i term acc)
      (read_str_loop rest i term acc).
Proof.
  induction rest as [|c rest IH]; intros i acc; simpl.
  - apply sim_raise.
  - destruct (str_in c term).
    { apply sim_bind; [apply sim_get_line|intros l; apply sim_ret]. }
    destruct (Ascii.eqb c nl); [|apply IH].
    apply sim_bind; [apply sim_incr_line|intros _; apply IH].
Qed.

(** A branch of the loop that appends a token of its own, and a branch that
    appends the token of a scanner. *)
Lemma sim_mark_branch self kind txt i :
  simulates self
    (Heap.bind (Heap.get_line self)
       (fun l => Heap.bind (Heap.tokens_append self (mkToken kind txt l))
                   (fun _ => Heap.ret (i + 1))))
    (l <- get_line ;; _ <- tokens_append (mkToken kind txt l) ;; ret (i + 1)).
Proof.
  apply sim_bind; [apply sim_get_line|intros l].
  apply sim_bind; [apply sim_tokens_append|intros _; apply sim_ret].
Qed.

Lemma sim_scanner_branch self (scanh : nat -> Heap.H (nat * Token))
    (scan : nat -> M (nat * Token)) :
  (forall l, simulates self (scanh l) (scan l)) ->
  simulates self
    (Heap.bind (Heap.get_line self)
       (fun l => Heap.bind (scanh l)
                   (fun x => match x with
                             | (i', tok) =>
                                 Heap.bind (Heap.tokens_append self tok)
                                   (fun _ => Heap.ret i')
                             end)))
    (l <- get_line ;; '(i', tok) <- scan l ;; _ <- tokens_append tok ;; ret i').
Proof.
  intros Hscan. apply sim_bind; [apply sim_get_line|intros l].
  apply sim_bind; [apply Hscan|intros [i' tok]].
  apply sim_bind; [apply sim_tokens_append|intros _; apply sim_ret].
Qed.

Lemma sim_tokenize_body self chars i :
  simulates self (Heap.tokenize_body self chars i) (tokenize_body chars i).
Proof.
  unfold Heap.tokenize_body, tokenize_body.
  destruct (nth_error chars i) as [char|]; [|apply sim_raise].
  destruct (Ascii.eqb char nl).
  { apply sim_bind; [apply sim_incr_line|intros _; apply sim_ret]. }
  destruct (isspace char); [apply sim_ret|].
  destruct (Ascii.eqb char ";"); [apply sim_discard_comment_loop|].
  destruct (Ascii.eqb char "("); [apply sim_mark_branch|].
  destruct (Ascii.eqb char ")"); [apply sim_mark_branch|].
  destruct (Ascii.eqb char "'"); [apply sim_mark_branch|].
  destruct (str_in char atom_start_chars || Ascii.eqb char ".").
  { apply (sim_scanner_branch self
             (fun l => Heap.read_atom self i l
                         (str_start_chars ++ num_start_chars) chars)
             (fun l => read_atom i l (str_start_chars ++ num_start_chars)
                         chars)).
    intros l. apply sim_read_atom_loop. }
  destruct (str_in char str_start_chars).
  { apply (sim_scanner_branch self
             (fun l => Heap.read_str self i l (String char "") chars)
             (fun l => read_str i l (String char "") chars)).
    intros l. unfold Heap.read_str, read_str.
    destruct (skipn i chars) as [|c rest];
      [apply sim_raise|apply sim_read_str_loop]. }
  destruct (str_in char num_start_chars); [|apply sim_ret].
  apply (sim_scanner_branch self
           (fun l => Heap.read_num self i l
                       (atom_start_chars ++ str_start_chars) chars)
           (fun l => read_num i l (atom_start_chars ++ str_start_chars)
                       chars)).
  intros l. apply sim_read_num_loop.
Qed.

Lemma sim_tokenize_loop self chars :
  forall fuel i,
    simulates self (Heap.tokenize_loop fuel self chars i)
      (tokenize_loop fuel chars i).
Proof.
  induction fuel as [|fuel IH]; intros i; simpl;
    destruct (i <? length chars); try apply sim_ret.
  - intros st _. unfold lift; simpl. now rewrite put_view.
  - apply sim_bind; [apply sim_tokenize_body|intros j; apply IH].
Qed.

(** [tokenize] on an instance of the store: the outcome and the final
    object are those of [tokenize] on the object, the answer is the
    reference of the instance's list, and no other object is touched. *)
Lemma tokenize_on_store fuel self st :
  valid st self ->
  Heap.tokenize fuel self st
  = (match fst (tokenize fuel (view st self)) with
     | Ret _ => Ret (Heap.tokens (Heap.instance_at st self))
     | Raise e => Raise e
     | Diverge => Diverge
     end,
     put st self (snd (tokenize fuel (view st self)))).
Proof.
  intros Hv. unfold Heap.tokenize, Heap.bind at 1, Heap.get_text.
  unfold Heap.bind.
  change (Heap.text (Heap.instance_at st self))
    with (self_text (view st self)).
  rewrite (sim_tokenize_loop self _ fuel 0 st Hv). unfold lift.
  unfold tokenize, bind.
  destruct (tokenize_loop fuel (list_ascii_of_string (self_text (view st self)))
              0 (view st self)) as [[u|e|] s']; simpl; try reflexivity.
  unfold Heap.get_tokens. rewrite (instance_at_put _ _ _ Hv). reflexivity.
Qed.

(** *** The other objects of the store *)

Lemma list_at_put_own st self s :
  valid st self ->
  Heap.list_at (put st self s) (Heap.tokens (Heap.instance_at st self))
  = self_tokens s.
Proof.
  intros [_ Href]. unfold Heap.list_at, put; simpl.
  apply nth_set_nth_eq. exact Href.
Qed.

Lemma list_at_put_other st self s ref :
  ref <> Heap.tokens (Heap.instance_at st self) ->
  Heap.list_at (put st self s) ref = Heap.list_at st ref.
Proof.
  intros Hne. unfold Heap.list_at, put; simpl.
  apply nth_set_nth_neq. congruence.
Qed.

Lemma instance_at_put_other st self s other :
  other <> self ->
  Heap.instance_at (put st self s) other = Heap.instance_at st other.
Proof.
  intros Hne. unfold Heap.instance_at, put; simpl.
  apply nth_set_nth_neq. congruence.
Qed.

Lemma valid_put_other st self s other :
  other <> self -> valid st other -> valid (put st self s) other.
Proof.
  intros Hne [H1 H2]. split.
  - unfold put; simpl. rewrite length_set_nth. exact H1.
  - rewrite (instance_at_put_other _ _ _ _ Hne). unfold put; simpl.
    rewrite length_set_nth. exact H2.
Qed.

Lemma view_put_other st self s other :
  other <> self ->
  Heap.tokens (Heap.instance_at st other)
  <> Heap.tokens (Heap.instance_at st self) ->
  view (put st self s) other = view st other.
Proof.
  intros Hne Href. unfold view.
  rewrite (instance_at_put_other _ _ _ _ Hne).
  rewrite (list_at_put_other _ _ _ _ Href). reflexivity.
Qed.

(** *** Two instances made one after the other *)

Lemma nth_last_but_one {A} (l : list A) x y d :
  nth (length l) ((l ++ [x]) ++ [y]) d = x.
Proof. rewrite <- app_assoc. simpl. apply nth_middle. Qed.

Lemma nth_last {A} (l : list A) x y d :
  nth (S (length l)) ((l ++ [x]) ++ [y]) d = y.
Proof.
  replace (S (length l)) with (length (l ++ [x]))
    by (rewrite length_app; simpl; lia).
  apply nth_middle.
Qed.

(** The store after [a = Lexer(text); b = Lexer(text)]: two instances, each
    the fresh object of the buffer, each with a list of its own. *)
Lemma two_fresh_instances text st a st1 b st2 :
  Heap.Lexer_init text st = (a, st1) ->
  Heap.Lexer_init text st1 = (b, st2) ->
  a <> b /\
  Heap.tokens (Heap.instance_at st2 a) = length (Heap.lists st) /\
  Heap.tokens (Heap.instance_at st2 b) = S (length (Heap.lists st)) /\
  valid st2 a /\ valid st2 b /\
  view st2 a = Lexer_init text /\ view st2 b = Lexer_init text.
Proof.
  unfold Heap.Lexer_init. intros [= <- <-] [= <- <-]. simpl.
  destruct st as [insts lsts]; simpl.
  assert (Hla : length (lsts ++ [[]]) = S (length lsts))
    by (rewrite length_app; simpl; lia).
  assert (Hia : length (insts ++ [Heap.mkInstance text 0 1 (length lsts)])
                = S (length insts))
    by (rewrite length_app; simpl; lia).
  rewrite Hla, Hia.
  assert (Ea : Heap.instance_at
                 {| Heap.instances :=
                      (insts ++ [Heap.mkInstance text 0 1 (length lsts)])
                      ++ [Heap.mkInstance text 0 1 (S (length lsts))];
                    Heap.lists := (lsts ++ [[]]) ++ [[]] |} (length insts)
               = Heap.mkInstance text 0 1 (length lsts)).
  { unfold Heap.instance_at; simpl. apply nth_last_but_one. }
  assert (Eb : Heap.instance_at
                 {| Heap.instances :=
                      (insts ++ [Heap.mkInstance text 0 1 (length lsts)])
                      ++ [Heap.mkInstance text 0 1 (S (length lsts))];
                    Heap.lists := (lsts ++ [[]]) ++ [[]] |} (S (length insts))
               = Heap.mkInstance text 0 1 (S (length lsts))).
  { unfold Heap.instance_at; simpl. apply nth_last. }
  unfold valid, view. rewrite Ea, Eb. simpl.
  unfold Heap.list_at; simpl.
  rewrite nth_last_but_one, nth_last.
  rewrite !length_app; simpl.
  repeat split; try lia; reflexivity.
Qed.

(** C8: two fresh [Lexer] instances over the same buffer, made in one store
    of objects whatever else the store holds, and run one after the other,
    each to its return, end with token-for-token identical sequences.  The
    two answers are two list objects; the run of the second instance leaves
    the list of the first as it was; and the sequence is the one the buffer
    alone determines, whatever the store held before and however many
    iterations either run was allowed. *)
Theorem fresh_instances_agree :
  forall text fuel1 fuel2 st a st1 b st2 r1 st3 r2 st4,
    Heap.Lexer_init text st = (a, st1) ->
    Heap.Lexer_init text st1 = (b, st2) ->
    Heap.tokenize fuel1 a st2 = (Ret r1, st3) ->
    Heap.tokenize fuel2 b st3 = (Ret r2, st4) ->
    a <> b /\ r1 <> r2 /\
    Heap.list_at st4 r1 = Heap.list_at st3 r1 /\
    Heap.list_at st4 r1 = Heap.list_at st4 r2 /\
    exists s,
      tokenize fuel1 (Lexer_init text) = (Ret (Heap.list_at st4 r2), s).
Proof.
  intros text fuel1 fuel2 st a st1 b st2 r1 st3 r2 st4 Ha Hb E1 E2.
  destruct (two_fresh_instances _ _ _ _ _ _ Ha Hb)
    as (Hab & Hra & Hrb & Hva & Hvb & Hviewa & Hviewb).
  rewrite (tokenize_on_store fuel1 a st2 Hva), Hviewa in E1.
  destruct (tokenize fuel1 (Lexer_init text)) as [[toks1|e1|] s1] eqn:T1;
    simpl in E1; try discriminate E1.
  injection E1 as <- <-.
  assert (Hne : b <> a) by congruence.
  assert (Hrne : Heap.tokens (Heap.instance_at st2 b)
                 <> Heap.tokens (Heap.instance_at st2 a)) by lia.
  pose proof (valid_put_other st2 a s1 b Hne Hvb) as Hvb'.
  pose proof (view_put_other st2 a s1 b Hne Hrne) as Hviewb'.
  rewrite (tokenize_on_store fuel2 b _ Hvb'), Hviewb', Hviewb in E2.
  destruct (tokenize fuel2 (Lexer_init text)) as [[toks2|e2|] s2] eqn:T2;
    simpl in E2; try discriminate E2.
  injection E2 as <- <-.
  rewrite (instance_at_put_other _ _ _ _ Hne).
  destruct (tokenize_fresh_deterministic _ _ _ _ _ _ _ T1 T2) as [<- <-].
  pose proof (tokenize_returns_tokens _ _ _ _ T1) as Htoks.
  assert (H41 : Heap.list_at (put (put st2 a s1) b s1)
                  (Heap.tokens (Heap.instance_at st2 a))
                = Heap.list_at (put st2 a s1)
                    (Heap.tokens (Heap.instance_at st2 a))).
  { apply list_at_put_other.
    rewrite (instance_at_put_other _ _ _ _ Hne). lia. }
  assert (H3 : Heap.list_at (put st2 a s1)
                 (Heap.tokens (Heap.instance_at st2 a)) = toks1).
  { rewrite (list_at_put_own _ _ _ Hva). symmetry. exact Htoks. }
  assert (H42 : Heap.list_at (put (put st2 a s1) b s1)
                  (Heap.tokens (Heap.instance_at st2 b)) = toks1).
  { rewrite <- (instance_at_put_other st2 a s1 b Hne).
    rewrite (list_at_put_own _ _ _ Hvb'). symmetry. exact Htoks. }
  split; [exact Hab|]. split; [lia|]. split; [exact H41|].
  split; [rewrite H41, H3, H42; reflexivity|].
  exists s1. rewrite H42. reflexivity.
Qed.

Lemma fresh_instances_agree_witness :
  let st := Heap.mkStore [] [] in
  let st1 := snd (Heap.Lexer_init "(foo)" st) in
  let st2 := snd (Heap.Lexer_init "(foo)" st1) in
  let st3 := snd (Heap.tokenize 5 0 st2) in
  let st4 := snd (Heap.tokenize 9 1 st3) in
  0 <> 1 /\ 0 <> 1 /\
  Heap.list_at st4 0 = Heap.list_at st3 0 /\
  Heap.list_at st4 0 = Heap.list_at st4 1 /\
  exists s, tokenize 5 (Lexer_init "(foo)") = (Ret (Heap.list_at st4 1), s).
Proof.
  apply (fresh_instances_agree "(foo)" 5 9 (Heap.mkStore [] [])
           0 (snd (Heap.Lexer_init "(foo)" (Heap.mkStore [] [])))
           1 (snd (Heap.Lexer_init "(foo)"
                     (snd (Heap.Lexer_init "(foo)" (Heap.mkStore [] []))))));
    reflexivity.
Defined.

(** ** C9: calling [tokenize] twice on one object *)

Lemma tokenize_frame fuel self :
  self_text (snd (tokenize fuel self)) = self_text self /\
  self_pos (snd (tokenize fuel self)) = self_pos self /\
  self_line self <= self_line (snd (tokenize fuel self)).
Proof.
  unfold tokenize, bind.
  pose proof (tokenize_loop_frame fuel
                (list_ascii_of_string (self_text self)) 0 self) as H.
  destruct (tokenize_loop fuel (list_ascii_of_string (self_text self)) 0 self)
    as [[u|e|] self']; exact H.
Qed.

(** A call from the rebased object answers as the call from the original
    one, with the kept tokens in front and the lines moved. *)
Lemma tokenize_rebase d kept fuel self :
  tokenize fuel (rebase d kept self)
  = rebase_result (fun toks => kept ++ map (shift_tok d) toks)%list d kept
      (tokenize fuel self).
Proof.
  unfold tokenize, bind. simpl self_text.
  rewrite tokenize_loop_rebase.
  destruct (tokenize_loop fuel (list_ascii_of_string (self_text self)) 0 self)
    as [[u|e|] self']; reflexivity.
Qed.

(** The object a first call leaves is the fresh one, rebased. *)
Lemma after_first_call_rebase text fuel toks1 self1 :
  tokenize fuel (Lexer_init text) = (Ret toks1, self1) ->
  self1 = rebase (self_line self1 - 1) toks1 (Lexer_init text).
Proof.
  intros E.
  pose proof (tokenize_frame fuel (Lexer_init text)) as (Ht & Hp & Hl).
  pose proof (tokenize_returns_tokens _ _ _ _ E) as Htoks.
  rewrite E in Ht, Hp, Hl. simpl in Ht, Hp, Hl. subst toks1.
  destruct self1 as [t p l toks]; simpl in *. subst t p.
  unfold rebase, Lexer_init; simpl. rewrite app_nil_r. f_equal. lia.
Qed.

(** C9, as the code has it: on the empty buffer, and on the buffer made of
    one space, the second call on the same object returns the same sequence
    as the first, the empty one. *)
Lemma tokenize_twice_same_when_no_token :
  (tokenize 0 (Lexer_init "") = (Ret [], Lexer_init "") /\
   tokenize 0 (snd (tokenize 0 (Lexer_init ""))) = (Ret [], Lexer_init "")) /\
  (tokenize 1 (Lexer_init " ") = (Ret [], Lexer_init " ") /\
   tokenize 1 (snd (tokenize 1 (Lexer_init " "))) = (Ret [], Lexer_init " ")).
Proof. repeat split. Qed.

(** C9, amended: when [tokenize] returns on a fresh object, a second call on
    the same object returns too; the token list and the line counter are not
    reset, so the sequence it returns is the first call's sequence followed
    by the tokens of a rescan, which are the first call's tokens with their
    lines counted on from the line counter the first pass ended with; the
    list of the object is that sequence.  It differs from the first call's
    sequence exactly when the first call returned at least one token. *)
Theorem tokenize_twice_appends :
  forall text fuel toks1 self1,
    tokenize fuel (Lexer_init text) = (Ret toks1, self1) ->
    exists self2,
      tokenize fuel self1
      = (Ret (toks1 ++ map (shift_tok (self_line self1 - 1)) toks1)%list,
         self2) /\
      self_tokens self2
      = (toks1 ++ map (shift_tok (self_line self1 - 1)) toks1)%list /\
      self_line self2 = self_line self1 + (self_line self1 - 1) /\
      ((toks1 ++ map (shift_tok (self_line self1 - 1)) toks1)%list = toks1
       <-> toks1 = []).
Proof.
  intros text fuel toks1 self1 E.
  pose proof (after_first_call_rebase _ _ _ _ E) as Hself1.
  pose proof (tokenize_returns_tokens _ _ _ _ E) as Htoks.
  set (d := self_line self1 - 1) in *.
  exists (rebase d toks1 self1). split; [|split; [|split]].
  - rewrite Hself1 at 1. rewrite tokenize_rebase, E. reflexivity.
  - simpl. rewrite <- Htoks. reflexivity.
  - reflexivity.
  - split.
    + intros H. apply (f_equal (@length Token)) in H.
      rewrite length_app, length_map in H.
      destruct toks1; [reflexivity|simpl in H; lia].
    + intros ->. reflexivity.
Qed.

Lemma tokenize_twice_appends_witness :
  exists self2,
    tokenize 4 (snd (tokenize 4 (Lexer_init ("(" ++ String nl ")"))))
    = (Ret [mkToken PAREN_OPEN "(" 1; mkToken PAREN_CLOSE ")" 2;
            mkToken PAREN_OPEN "(" 2; mkToken PAREN_CLOSE ")" 3], self2) /\
    self_tokens self2
    = [mkToken PAREN_OPEN "(" 1; mkToken PAREN_CLOSE ")" 2;
       mkToken PAREN_OPEN "(" 2; mkToken PAREN_CLOSE ")" 3] /\
    self_line self2 = 2 + (2 - 1) /\
    ([mkToken PAREN_OPEN "(" 1; mkToken PAREN_CLOSE ")" 2;
      mkToken PAREN_OPEN "(" 2; mkToken PAREN_CLOSE ")" 3]
     = [mkToken PAREN_OPEN "(" 1; mkToken PAREN_CLOSE ")" 2]
     <-> [mkToken PAREN_OPEN "(" 1; mkToken PAREN_CLOSE ")" 2] = []).
Proof.
  apply (tokenize_twice_appends ("(" ++ String nl ")") 4
           [mkToken PAREN_OPEN "(" 1; mkToken PAREN_CLOSE ")" 2]
           (snd (tokenize 4 (Lexer_init ("(" ++ String nl ")"))))).
  reflexivity.
Defined.

(** ** C10: termination *)

(** C10, as the code has it: on the one-character buffer [@] no scan runs
    past the end of the buffer, yet the iteration of the loop resumes with
    the cursor it started with, 0, and [tokenize] does not terminate. *)
Lemma tokenize_spins_on_at_sign :
  tokenize_body (list_ascii_of_string "@") 0 (Lexer_init "@")
  = (Ret 0, Lexer_init "@") /\
  (forall fuel, tokenize fuel (Lexer_init "@") = (Diverge, Lexer_init "@")).
Proof.
  split; [reflexivity|]. intros fuel. unfold tokenize, bind.
  rewrite (tokenize_loop_spins (list_ascii_of_string "@") 0 "@"%char);
    reflexivity.
Qed.

(** C10, amended: for a buffer in which no scan runs past the end and in
    which the dispatcher never lands on a character it has no rule for,
    [tokenize] terminates, within as many iterations as the buffer has
    characters: every iteration that starts on a character with a rule and
    returns, also through a scanner or the comment skipper, resumes with a
    cursor strictly greater than the one it started with. *)
Theorem tokenize_terminates :
  forall text,
    well_scanned (list_ascii_of_string text) (Lexer_init text) ->
    (exists toks self',
       tokenize (length (list_ascii_of_string text)) (Lexer_init text)
       = (Ret toks, self')) /\
    (forall chars i char self j self',
       nth_error chars i = Some char -> classified char = true ->
       tokenize_body chars i self = (Ret j, self') -> i < j).
Proof.
  intros text Hws. split.
  - destruct (tokenize_loop_terminates _ _ Hws
                (length (list_ascii_of_string text)) 0 (Lexer_init text))
      as [self' E]; [constructor|lia|].
    exists (self_tokens self'), self'.
    unfold tokenize, bind. simpl self_text. rewrite E. reflexivity.
  - intros chars i char self j self'. apply tokenize_body_progress.
Qed.

(** The iterations of the scan of [(a)]: the cursor and the tokens so far. *)
Lemma visits_paren_a i self :
  visits (list_ascii_of_string "(a)") (Lexer_init "(a)") i self ->
  (i = 0 /\ self = mkLexer "(a)" 0 1 []) \/
  (i = 1 /\ self = mkLexer "(a)" 0 1 [mkToken PAREN_OPEN "(" 1]) \/
  (i = 2 /\ self = mkLexer "(a)" 0 1 [mkToken PAREN_OPEN "(" 1;
                                      mkToken ATOM "a" 1]) \/
  (i = 3 /\ self = mkLexer "(a)" 0 1 [mkToken PAREN_OPEN "(" 1;
                                      mkToken ATOM "a" 1;
                                      mkToken PAREN_CLOSE ")" 1]).
Proof.
  induction 1 as [|i self j self' Hv IH Hi E].
  - left; split; reflexivity.
  - destruct IH as [[-> ->]|[[-> ->]|[[-> ->]|[-> ->]]]];
      vm_compute in E; inversion E; subst; auto 6.
Qed.

Lemma well_scanned_paren_a :
  well_scanned (list_ascii_of_string "(a)") (Lexer_init "(a)").
Proof.
  intros i self Hv Hi. apply visits_paren_a in Hv.
  destruct Hv as [[-> ->]|[[-> ->]|[[-> ->]|[-> ->]]]].
  - do 3 eexists. repeat split.
  - do 3 eexists. repeat split.
  - do 3 eexists. repeat split.
  - simpl in Hi. lia.
Qed.

Lemma tokenize_terminates_witness :
  (exists toks self',
     tokenize (length (list_ascii_of_string "(a)")) (Lexer_init "(a)")
     = (Ret toks, self')) /\
  (forall chars i char self j self',
     nth_error chars i = Some char -> classified char = true ->
     tokenize_body chars i self = (Ret j, self') -> i < j).
Proof.
  apply (tokenize_terminates "(a)"). exact well_scanned_paren_a.
Defined.

(** * Further properties of the scanner *)

(** ** Slices *)

Lemma chars_between_nil chars i : chars_between chars i i = [].
Proof. unfold chars_between. rewrite Nat.sub_diag. reflexivity. Qed.

Lemma chars_between_cons chars i j c :
  nth_error chars i = Some c -> i < j ->
  chars_between chars i j = c :: chars_between chars (i + 1) j.
Proof.
  intros Hc Hij. unfold chars_between.
  rewrite (nth_error_skipn_cons _ _ _ Hc).
  replace (j - i) with (S (j - (i + 1))) by lia. reflexivity.
Qed.

Lemma chars_between_prefix chars i pre post :
  skipn i chars = (pre ++ post)%list ->
  chars_between chars i (i + length pre) = pre.
Proof.
  intros E. unfold chars_between. rewrite E.
  replace (i + length pre - i) with (length pre + 0) by lia.
  rewrite firstn_app_2. simpl. apply app_nil_r.
Qed.

Lemma suffix_in_bounds (chars : list ascii) i pre c post :
  skipn i chars = (pre ++ c :: post)%list -> i + length pre < length chars.
Proof.
  intros E. apply (f_equal (@length ascii)) in E.
  rewrite length_skipn, length_app in E. simpl in E. lia.
Qed.

Lemma slice_nil chars i : slice chars i i = "".
Proof. unfold slice. rewrite chars_between_nil. reflexivity. Qed.

Lemma slice_cons chars i j c :
  nth_error chars i = Some c -> i < j ->
  slice chars i j = String c (slice chars (i + 1) j).
Proof.
  intros Hc Hij. unfold slice.
  rewrite (chars_between_cons _ _ _ _ Hc Hij). reflexivity.
Qed.

Lemma string_of_list_ascii_app l1 l2 :
  string_of_list_ascii (l1 ++ l2)
  = string_of_list_ascii l1 ++ string_of_list_ascii l2.
Proof. induction l1 as [|c l1 IH]; simpl; [reflexivity|now rewrite IH]. Qed.

(** ** The comment skipper, from the buffer to the answer *)

Lemma discard_comment_loop_to_newline chars self :
  forall n i j,
    j = i + n -> nth_error chars j = Some nl ->
    (forall k, i <= k < j -> nth_error chars k <> Some nl) ->
    discard_comment_loop (skipn i chars) i self = (Ret j, self).
Proof.
  induction n as [|n IH]; intros i j -> Hj Hbefore;
    rewrite discard_comment_loop_at.
  - rewrite Nat.add_0_r in Hj. rewrite Hj. simpl. rewrite Nat.add_0_r.
    reflexivity.
  - destruct (nth_error chars i) as [x|] eqn:Ex.
    + assert (Hx : Ascii.eqb x nl = false).
      { apply Ascii.eqb_neq. intros ->. apply (Hbefore i); [lia|exact Ex]. }
      rewrite Hx. simpl. apply IH; [lia|exact Hj|].
      intros k Hk. apply Hbefore. lia.
    + apply nth_error_None in Ex.
      assert (i + S n < length chars).
      { apply nth_error_Some. rewrite Hj. discriminate. }
      lia.
Qed.

Lemma discard_comment_loop_no_newline chars self :
  forall m i,
    length chars - i <= m ->
    (forall k, i <= k -> nth_error chars k <> Some nl) ->
    discard_comment_loop (skipn i chars) i self = (Raise IndexError, self).
Proof.
  induction m as [|m IH]; intros i Hm Hno; rewrite discard_comment_loop_at.
  - assert (E : nth_error chars i = None) by (apply nth_error_None; lia).
    rewrite E. reflexivity.
  - destruct (nth_error chars i) as [x|] eqn:Ex; [|reflexivity].
    assert (Hx : Ascii.eqb x nl = false).
    { apply Ascii.eqb_neq. intros ->. apply (Hno i); [lia|exact Ex]. }
    rewrite Hx. simpl. apply IH.
    + assert (i < length chars) by (apply nth_error_Some; congruence). lia.
    + intros k Hk. apply Hno. lia.
Qed.

(** X1: [discard_comment] answers the index of the first newline at or after
    the cursor and leaves the object as it was; when no newline follows, it
    raises [IndexError]. *)
Theorem discard_comment_first_newline :
  forall chars i self,
    (forall j, i <= j -> nth_error chars j = Some nl ->
       (forall k, i <= k < j -> nth_error chars k <> Some nl) ->
       discard_comment i chars self = (Ret j, self)) /\
    ((forall k, i <= k -> nth_error chars k <> Some nl) ->
     discard_comment i chars self = (Raise IndexError, self)).
Proof.
  intros chars i self. split.
  - intros j Hij Hj Hbefore. unfold discard_comment.
    apply (discard_comment_loop_to_newline chars self (j - i)); [lia|exact Hj|].
    exact Hbefore.
  - intros Hno. unfold discard_comment.
    apply (discard_comment_loop_no_newline chars self (length chars - i));
      [lia|exact Hno].
Qed.

Lemma discard_comment_first_newline_witness :
  discard_comment 2 (list_ascii_of_string ("a ; b" ++ String nl "c"))
    (Lexer_init "")
  = (Ret 5, Lexer_init "").
Proof.
  apply (proj1 (discard_comment_first_newline
                  (list_ascii_of_string ("a ; b" ++ String nl "c")) 2
                  (Lexer_init "")) 5).
  - lia.
  - reflexivity.
  - intros k Hk.
    assert (Hcases : k = 2 \/ k = 3 \/ k = 4) by lia.
    destruct Hcases as [ -> | [ -> | -> ] ]; discriminate.
Defined.

(** ** The atom and number scanners, from the buffer to the answer *)

Lemma scan_loop_at kind msg chars i err acc :
  scan_loop kind msg (skipn i chars) i err acc
  = match nth_error chars i with
    | None => raise IndexError
    | Some char =>
        if str_in char err then
          l <- get_line ;; ret (i, mkToken ERR msg l)
        else if is_terminator char then
          l <- get_line ;; ret (i, mkToken kind acc l)
        else scan_loop kind msg (skipn (i + 1) chars) (i + 1) err
               (add_char acc char)
    end.
Proof. by_index chars i. Qed.

Lemma scan_loop_to_terminator kind msg chars err self c :
  forall n i j acc,
    j = i + n -> nth_error chars j = Some c ->
    str_in c err = false -> is_terminator c = true ->
    (forall k, i <= k < j ->
       exists x, nth_error chars k = Some x /\ accumulated err x) ->
    scan_loop kind msg (skipn i chars) i err acc self
    = (Ret (j, mkToken kind (acc ++ slice chars i j) (self_line self)), self).
Proof.
  induction n as [|n IH]; intros i j acc -> Hj Herr Hterm Hbefore;
    rewrite scan_loop_at.
  - rewrite Nat.add_0_r in *. rewrite Hj, Herr, Hterm.
    rewrite slice_nil, append_nil_r. reflexivity.
  - destruct (Hbefore i) as (x & Ex & Hx1 & Hx2); [lia|].
    rewrite Ex, Hx1, Hx2.
    rewrite (IH (i + 1) (i + S n) (add_char acc x));
      [|lia|exact Hj|exact Herr|exact Hterm|intros k Hk; apply Hbefore; lia].
    rewrite (slice_cons chars i (i + S n) x Ex) by lia.
    rewrite add_char_append. reflexivity.
Qed.

Lemma scan_loop_unterminated kind msg chars err self :
  forall m i acc,
    length chars - i <= m ->
    (forall k, i <= k < length chars ->
       exists x, nth_error chars k = Some x /\ accumulated err x) ->
    scan_loop kind msg (skipn i chars) i err acc self = (Raise IndexError, self).
Proof.
  induction m as [|m IH]; intros i acc Hm Hall; rewrite scan_loop_at.
  - assert (E : nth_error chars i = None) by (apply nth_error_None; lia).
    rewrite E. reflexivity.
  - destruct (nth_error chars i) as [x|] eqn:Ex; [|reflexivity].
    assert (Hi : i < length chars) by (apply nth_error_Some; congruence).
    destruct (Hall i) as (y & Ey & Hy1 & Hy2); [lia|].
    rewrite Ex in Ey. inversion Ey; subst y. rewrite Hy1, Hy2.
    apply IH; [lia|]. intros k Hk. apply Hall. lia.
Qed.

(** X2: [read_atom] and [read_num], started at the index [i], stop on the
    first terminator (a whitespace character or a parenthesis) that no error
    character precedes: they answer its index, so that the terminator is
    left to the dispatcher, with the token whose text is [chars[i:j]] and
    whose line is the line counter, and leave the object as it was.  When
    neither an error character nor a terminator follows, they raise
    [IndexError]. *)
Theorem scanners_stop_at_terminator :
  forall chars i line_num err self,
    (forall j c,
       i <= j -> nth_error chars j = Some c ->
       str_in c err = false -> is_terminator c = true ->
       (forall k, i <= k < j ->
          exists x, nth_error chars k = Some x /\ accumulated err x) ->
       read_atom i line_num err chars self
       = (Ret (j, mkToken ATOM (slice chars i j) (self_line self)), self) /\
       read_num i line_num err chars self
       = (Ret (j, mkToken NUM (slice chars i j) (self_line self)), self)) /\
    ((forall k, i <= k < length chars ->
        exists x, nth_error chars k = Some x /\ accumulated err x) ->
     read_atom i line_num err chars self = (Raise IndexError, self) /\
     read_num i line_num err chars self = (Raise IndexError, self)).
Proof.
  intros chars i line_num err self. unfold read_atom, read_num.
  rewrite read_atom_loop_scan, read_num_loop_scan. split.
  - intros j c Hij Hj Herr Hterm Hbefore. split.
    + apply (scan_loop_to_terminator ATOM atom_msg chars err self c (j - i));
        [lia|assumption..].
    + apply (scan_loop_to_terminator NUM num_msg chars err self c (j - i));
        [lia|assumption..].
  - intros Hall. split.
    + apply (scan_loop_unterminated ATOM atom_msg chars err self
               (length chars - i)); [lia|exact Hall].
    + apply (scan_loop_unterminated NUM num_msg chars err self
               (length chars - i)); [lia|exact Hall].
Qed.

Lemma scanners_stop_at_terminator_witness :
  read_atom 1 1 atom_error_set (list_ascii_of_string "(ab c)")
    (Lexer_init "(ab c)")
  = (Ret (3, mkToken ATOM (slice (list_ascii_of_string "(ab c)") 1 3) 1),
     Lexer_init "(ab c)") /\
  read_num 1 1 atom_error_set (list_ascii_of_string "(ab c)")
    (Lexer_init "(ab c)")
  = (Ret (3, mkToken NUM (slice (list_ascii_of_string "(ab c)") 1 3) 1),
     Lexer_init "(ab c)").
Proof.
  apply (proj1 (scanners_stop_at_terminator (list_ascii_of_string "(ab c)") 1 1
                  atom_error_set (Lexer_init "(ab c)")) 3 " "%char).
  - lia.
  - reflexivity.
  - reflexivity.
  - reflexivity.
  - intros k Hk.
    assert (Hcases : k = 1 \/ k = 2) by lia.
    destruct Hcases as [ -> | -> ]; eexists; repeat split.
Defined.

(** ** The string scanner, from the buffer to the answer *)

Lemma read_str_loop_to_quote chars term d :
  forall n i j acc self,
    j = i + n -> nth_error chars j = Some d -> str_in d term = true ->
    (forall k, i <= k < j ->
       exists x, nth_error chars k = Some x /\ str_in x term = false) ->
    read_str_loop (skipn i chars) i term acc self
    = (Ret (j + 1,
            mkToken STR (acc ++ slice chars i (j + 1))
              (self_line self + count_nl (chars_between chars i j))),
       advance_line (count_nl (chars_between chars i j)) self).
Proof.
  induction n as [|n IH]; intros i j acc self -> Hj Hd Hbefore;
    rewrite read_str_loop_at.
  - rewrite Nat.add_0_r in *. rewrite Hj, Hd.
    rewrite (slice_cons chars i (i + 1) d Hj) by lia.
    rewrite slice_nil, chars_between_nil, advance_line_0.
    unfold bind, get_line, ret, add_char, count_nl; simpl.
    rewrite Nat.add_0_r. reflexivity.
  - destruct (Hbefore i) as (x & Ex & Hx); [lia|].
    rewrite Ex, Hx.
    rewrite (slice_cons chars i (i + S n + 1) x Ex) by lia.
    rewrite (chars_between_cons chars i (i + S n) x Ex) by lia.
    rewrite <- add_char_append.
    assert (Hrest : forall k, i + 1 <= k < i + S n ->
              exists y, nth_error chars k = Some y /\ str_in y term = false).
    { intros k Hk. apply Hbefore. lia. }
    destruct (Ascii.eqb x nl) eqn:Enl.
    + apply Ascii.eqb_eq in Enl. subst x.
      rewrite bind_incr_line.
      rewrite (IH (i + 1) (i + S n) (add_char acc nl) (advance_line 1 self));
        [|lia|exact Hj|exact Hd|exact Hrest].
      rewrite count_nl_cons_nl, advance_line_add.
      simpl. rewrite <- (Nat.add_assoc (self_line self) 1). reflexivity.
    + rewrite (IH (i + 1) (i + S n) (add_char acc x) self);
        [|lia|exact Hj|exact Hd|exact Hrest].
      rewrite (count_nl_cons_other x _ Enl). reflexivity.
Qed.

Lemma read_str_loop_no_quote chars term :
  forall m i acc self,
    length chars - i <= m ->
    (forall k, i <= k < length chars ->
       exists x, nth_error chars k = Some x /\ str_in x term = false) ->
    read_str_loop (skipn i chars) i term acc self
    = (Raise IndexError, advance_line (count_nl (skipn i chars)) self).
Proof.
  induction m as [|m IH]; intros i acc self Hm Hall; rewrite read_str_loop_at.
  - assert (E : nth_error chars i = None) by (apply nth_error_None; lia).
    rewrite E, (skipn_beyond _ _ E), advance_line_0. reflexivity.
  - destruct (nth_error chars i) as [x|] eqn:Ex.
    + assert (Hi : i < length chars) by (apply nth_error_Some; congruence).
      destruct (Hall i) as (y & Ey & Hy); [lia|].
      rewrite Ex in Ey. inversion Ey; subst y. rewrite Hy.
      rewrite (nth_error_skipn_cons _ _ _ Ex).
      assert (Hrest : forall k, i + 1 <= k < length chars ->
                exists y, nth_error chars k = Some y /\ str_in y term = false).
      { intros k Hk. apply Hall. lia. }
      destruct (Ascii.eqb x nl) eqn:Enl.
      * apply Ascii.eqb_eq in Enl. subst x. rewrite bind_incr_line.
        rewrite (IH (i + 1) _ (advance_line 1 self)); [|lia|exact Hrest].
        rewrite count_nl_cons_nl, advance_line_add. reflexivity.
      * rewrite (IH (i + 1) _ self); [|lia|exact Hrest].
        rewrite (count_nl_cons_other x _ Enl). reflexivity.
    + rewrite (skipn_beyond _ _ Ex), advance_line_0. reflexivity.
Qed.

(** X3: [read_str], started on a character at the index [i], ends on the first
    character of [str_termination_char] after [i], whatever stands before it
    (a backslash is a character like another): it answers the index after
    that character and the [STR] token whose text is the whole of
    [chars[i:j+1]], and it has advanced the line counter once per newline
    in between, the token carrying the counter so advanced.  When no such
    character follows, it raises [IndexError], and the line counter stays
    advanced by the number of newlines after [i]. *)
Theorem read_str_to_closing_quote :
  forall chars i line_num term self c0,
    nth_error chars i = Some c0 ->
    (forall j d,
       i < j -> nth_error chars j = Some d -> str_in d term = true ->
       (forall k, i < k < j ->
          exists x, nth_error chars k = Some x /\ str_in x term = false) ->
       read_str i line_num term chars self
       = (Ret (j + 1,
               mkToken STR (slice chars i (j + 1))
                 (self_line self + count_nl (chars_between chars (i + 1) j))),
          advance_line (count_nl (chars_between chars (i + 1) j)) self)) /\
    ((forall k, i < k < length chars ->
        exists x, nth_error chars k = Some x /\ str_in x term = false) ->
     read_str i line_num term chars self
     = (Raise IndexError,
        advance_line (count_nl (skipn (i + 1) chars)) self)).
Proof.
  intros chars i line_num term self c0 Hc0. unfold read_str.
  rewrite (nth_error_skipn_cons _ _ _ Hc0). split.
  - intros j d Hij Hj Hd Hbefore.
    rewrite (read_str_loop_to_quote chars term d (j - (i + 1)) (i + 1) j);
      [|lia|exact Hj|exact Hd|intros k Hk; apply Hbefore; lia].
    rewrite (slice_cons chars i (j + 1) c0 Hc0) by lia. reflexivity.
  - intros Hall.
    apply (read_str_loop_no_quote chars term (length chars - (i + 1)));
      [lia|]. intros k Hk. apply Hall. lia.
Qed.

Lemma read_str_to_closing_quote_witness :
  read_str 0 1 str_start_chars (list_ascii_of_string hello_world)
    (Lexer_init hello_world)
  = (Ret (12 + 1,
          mkToken STR (slice (list_ascii_of_string hello_world) 0 (12 + 1))
            (self_line (Lexer_init hello_world)
             + count_nl (chars_between (list_ascii_of_string hello_world)
                           (0 + 1) 12))),
     advance_line
       (count_nl (chars_between (list_ascii_of_string hello_world) (0 + 1) 12))
       (Lexer_init hello_world)).
Proof.
  apply (proj1 (read_str_to_closing_quote (list_ascii_of_string hello_world)
                  0 1 str_start_chars (Lexer_init hello_world) dquote eq_refl)
           12 dquote).
  - lia.
  - reflexivity.
  - reflexivity.
  - intros k Hk.
    assert (Hcases : k = 1 \/ k = 2 \/ k = 3 \/ k = 4 \/ k = 5 \/ k = 6 \/
                     k = 7 \/ k = 8 \/ k = 9 \/ k = 10 \/ k = 11) by lia.
    repeat (destruct Hcases as [ -> | Hcases ];
            [eexists; split; reflexivity|]).
    subst k. eexists; split; reflexivity.
Defined.

(** ** One iteration, in full *)

Lemma isspace_not_restart c : isspace c = true -> restart c = false.
Proof.
  destruct c as [[] [] [] [] [] [] [] []]; vm_compute; intros H;
    first [reflexivity | discriminate H].
Qed.

Lemma not_terminator_not_nl c :
  is_terminator c = false -> Ascii.eqb c nl = false.
Proof.
  unfold is_terminator; simpl. intros H.
  apply orb_false_iff in H. destruct H as [_ H].
  apply orb_false_iff in H. destruct H as [_ H].
  apply orb_false_iff in H. destruct H as [_ H].
  apply orb_false_iff in H. destruct H as [H _]. exact H.
Qed.

Lemma count_nl_none l :
  Forall (fun c => Ascii.eqb c nl = false) l -> count_nl l = 0.
Proof.
  induction 1 as [|c l Hc Hl IH]; [reflexivity|].
  rewrite (count_nl_cons_other c l Hc). exact IH.
Qed.

Lemma count_nl_accumulated err l :
  Forall (accumulated err) l -> count_nl l = 0.
Proof.
  intros H. apply count_nl_none. eapply Forall_impl; [|exact H].
  intros c [_ Hc]. apply not_terminator_not_nl. exact Hc.
Qed.

Lemma count_nl_one c : Ascii.eqb c nl = false -> count_nl [c] = 0.
Proof. intros H. rewrite (count_nl_cons_other c [] H). reflexivity. Qed.

Lemma count_nl_app l1 l2 : count_nl (l1 ++ l2) = count_nl l1 + count_nl l2.
Proof. unfold count_nl. apply count_occ_app. Qed.

Lemma chars_between_one chars i c :
  nth_error chars i = Some c -> chars_between chars i (i + 1) = [c].
Proof.
  intros Hc. rewrite (chars_between_cons chars i (i + 1) c Hc) by lia.
  rewrite chars_between_nil. reflexivity.
Qed.

Lemma slice_one chars i c :
  nth_error chars i = Some c -> slice chars i (i + 1) = String c "".
Proof. intros Hc. unfold slice. rewrite (chars_between_one _ _ _ Hc). reflexivity. Qed.

(** What the scanners of atoms and numbers hand to the dispatcher, when they
    start on an accumulated character. *)
Lemma scan_loop_step kind msg chars i err char self j tok self' :
  kind <> ERR ->
  nth_error chars i = Some char ->
  scan_loop kind msg (skipn i chars) i err "" self = (Ret (j, tok), self') ->
  i < j ->
  self' = self /\ j < length chars /\
  count_nl (chars_between chars i j) = 0 /\
  line tok = self_line self /\
  ((tok = mkToken ERR msg (self_line self) /\
    exists c, nth_error chars j = Some c /\ str_in c err = true) \/
   (tok = mkToken kind (slice chars i j) (self_line self) /\
    slice chars i j <> "" /\
    Forall (accumulated err) (list_ascii_of_string (slice chars i j)))).
Proof.
  intros Hkind Hc E Hlt.
  pose proof (scan_loop_spec kind msg (skipn i chars) i err "" self) as [Hs Hr].
  rewrite E in Hs, Hr. simpl in Hs, Hr.
  destruct Hr as (pre & c & post & Hrest & Hpre & -> & Hd).
  split; [exact Hs|]. split; [exact (suffix_in_bounds _ _ _ _ _ Hrest)|].
  assert (Hbetween : chars_between chars i (i + length pre) = pre).
  { apply (chars_between_prefix chars i pre (c :: post)). exact Hrest. }
  split; [rewrite Hbetween; exact (count_nl_accumulated err pre Hpre)|].
  unfold slice. rewrite Hbetween.
  destruct Hd as [[Hd ->]|(Hd1 & Hd2 & ->)].
  - split; [reflexivity|]. left. split; [reflexivity|].
    exists c. split; [|exact Hd].
    apply (nth_error_in_suffix chars pre post). exact Hrest.
  - split; [reflexivity|]. right. split; [reflexivity|]. split.
    + destruct pre as [|p pre]; [simpl in Hlt; lia|discriminate].
    + rewrite list_ascii_of_string_of_list_ascii. exact Hpre.
Qed.

Lemma str_in_one c d : str_in c (String d "") = Ascii.eqb c d.
Proof. simpl. apply orb_false_r. Qed.

(** An iteration that starts on a character with a rule and returns: the
    cursor moves forward and stays within the buffer; the line counter
    advances by the number of newlines passed; and either no token is
    appended, and the character was not one that starts a scanner, or one
    token is appended, which carries the line counter and is as
    [emitted_ok] says. *)
Lemma tokenize_body_step chars i char self j self' :
  nth_error chars i = Some char -> classified char = true ->
  tokenize_body chars i self = (Ret j, self') ->
  i < j <= length chars /\
  self_line self' = self_line self + count_nl (chars_between chars i j) /\
  ((self_tokens self' = self_tokens self /\ restart char = false) \/
   exists tok,
     self_tokens self' = (self_tokens self ++ [tok])%list /\
     line tok = self_line self' /\ emitted_ok chars i j tok).
Proof.
  intros Hc Hcl E.
  pose proof (tokenize_body_progress _ _ _ _ _ _ Hc Hcl E) as Hlt.
  assert (Hi : i < length chars) by (apply nth_error_Some; congruence).
  revert E. unfold tokenize_body. rewrite Hc.
  destruct (Ascii.eqb char nl) eqn:E1.
  { apply Ascii.eqb_eq in E1. subst char. intros [= <- <-]. simpl.
    rewrite (chars_between_one _ _ _ Hc).
    repeat split; try lia. left. split; reflexivity. }
  destruct (isspace char) eqn:E2.
  { intros [= <- <-]. rewrite (chars_between_one _ _ _ Hc).
    rewrite (count_nl_one char E1).
    repeat split; try (simpl; lia). left. split; [reflexivity|].
    apply isspace_not_restart. exact E2. }
  destruct (Ascii.eqb char ";") eqn:E3.
  { apply Ascii.eqb_eq in E3. subst char. unfold discard_comment. intros E.
    pose proof (discard_comment_loop_spec (skipn i chars) i self) as [Hs Hr].
    rewrite E in Hs, Hr. simpl in Hs, Hr. subst self'.
    destruct Hr as (pre & post & Hrest & Hpre & ->).
    rewrite (chars_between_prefix chars i pre (nl :: post) Hrest).
    rewrite (count_nl_none pre Hpre).
    pose proof (suffix_in_bounds _ _ _ _ _ Hrest).
    repeat split; try lia. left. split; reflexivity. }
  destruct (Ascii.eqb char "(") eqn:E4.
  { apply Ascii.eqb_eq in E4. subst char. intros [= <- <-]. simpl.
    rewrite (chars_between_one _ _ _ Hc), (count_nl_one _ E1).
    repeat split; try (simpl; lia). right. eexists.
    split; [reflexivity|]. split; [reflexivity|].
    split; [reflexivity|]. split; [|discriminate].
    intros _. rewrite (slice_one _ _ _ Hc). reflexivity. }
  destruct (Ascii.eqb char ")") eqn:E5.
  { apply Ascii.eqb_eq in E5. subst char. intros [= <- <-]. simpl.
    rewrite (chars_between_one _ _ _ Hc), (count_nl_one _ E1).
    repeat split; try (simpl; lia). right. eexists.
    split; [reflexivity|]. split; [reflexivity|].
    split; [reflexivity|]. split; [|discriminate].
    intros _. rewrite (slice_one _ _ _ Hc). reflexivity. }
  destruct (Ascii.eqb char "'") eqn:E6.
  { apply Ascii.eqb_eq in E6. subst char. intros [= <- <-]. simpl.
    rewrite (chars_between_one _ _ _ Hc), (count_nl_one _ E1).
    repeat split; try (simpl; lia). right. eexists.
    split; [reflexivity|]. split; [reflexivity|]. split; [|split].
    - split; [discriminate|]. repeat constructor.
    - intros _. rewrite (slice_one _ _ _ Hc). reflexivity.
    - discriminate. }
  assert (Hterm : is_terminator char = false).
  { unfold is_terminator. simpl. rewrite E1, E2, E4, E5. reflexivity. }
  destruct (str_in char atom_start_chars || Ascii.eqb char ".") eqn:E7.
  { unfold bind at 1, get_line at 1, bind at 1, read_atom.
    rewrite read_atom_loop_scan.
    destruct (scan_loop ATOM atom_msg (skipn i chars) i
                (str_start_chars ++ num_start_chars) "" self)
      as [[[j' tok]|e|] s'] eqn:Escan; try discriminate.
    intros [= <- <-]. simpl self_line. simpl self_tokens.
    destruct (scan_loop_step ATOM atom_msg chars i _ char self j' tok s'
                ltac:(discriminate) Hc Escan Hlt)
      as (-> & Hj & Hcount & Hline & Htok).
    rewrite Hcount. repeat split; try lia. right. exists tok.
    split; [reflexivity|]. split; [exact Hline|].
    destruct Htok as [[-> (c & Hcj & Hcerr)]|(-> & Hne & Hall)].
    - split; [left; reflexivity|]. split; [intros H; now contradiction H|].
      intros _. exists c. split; [exact Hcj|].
      rewrite str_in_app in Hcerr. unfold restart.
      apply orb_true_iff in Hcerr. destruct Hcerr as [H|H]; rewrite H;
        repeat rewrite orb_true_r; reflexivity.
    - split; [split; assumption|]. split; [reflexivity|discriminate]. }
  destruct (str_in char str_start_chars) eqn:E8.
  { rewrite str_in_dquote in E8. apply Ascii.eqb_eq in E8. subst char.
    unfold bind at 1, get_line at 1, bind at 1, read_str.
    rewrite (nth_error_skipn_cons _ _ _ Hc).
    pose proof (read_str_loop_spec (skipn (i + 1) chars) (i + 1)
                  (String dquote "") (add_char "" dquote) self) as Hr.
    destruct (read_str_loop (skipn (i + 1) chars) (i + 1) (String dquote "")
                (add_char "" dquote) self)
      as [[[j' tok]|e|] s'] eqn:Escan; try discriminate.
    intros [= <- <-]. simpl self_line. simpl self_tokens.
    destruct Hr as (pre & d & post & Hrest & Hpre & Hd & -> & -> & ->).
    rewrite str_in_one in Hd. apply Ascii.eqb_eq in Hd. subst d.
    pose proof (suffix_in_bounds _ _ _ _ _ Hrest) as Hb.
    assert (Hbetween : chars_between chars i (i + 1 + length pre + 1)
                       = (dquote :: pre ++ [dquote])%list).
    { rewrite (chars_between_cons chars i _ dquote Hc) by lia. f_equal.
      replace (i + 1 + length pre + 1)
        with (i + 1 + length (pre ++ [dquote])%list)
        by (rewrite length_app; simpl; lia).
      apply (chars_between_prefix chars (i + 1) (pre ++ [dquote]) post).
      rewrite <- app_assoc. exact Hrest. }
    assert (Hnq : ~ In dquote pre).
    { intros Hin. rewrite Forall_forall in Hpre. specialize (Hpre _ Hin).
      rewrite str_in_one, Ascii.eqb_refl in Hpre. discriminate. }
    rewrite Hbetween.
    assert (Hcnt : count_nl (dquote :: pre ++ [dquote]) = count_nl pre).
    { rewrite (count_nl_cons_other dquote _ eq_refl), count_nl_app.
      rewrite (count_nl_one dquote eq_refl). lia. }
    rewrite Hcnt. simpl self_line. simpl self_tokens.
    repeat split; try lia. right. eexists.
    split; [reflexivity|]. split; [reflexivity|]. split; [|split].
    - exists pre. split; [|exact Hnq]. simpl.
      rewrite string_of_list_ascii_app. reflexivity.
    - intros _. unfold slice. rewrite Hbetween. reflexivity.
    - discriminate. }
  destruct (str_in char num_start_chars) eqn:E9.
  { unfold bind at 1, get_line at 1, bind at 1, read_num.
    rewrite read_num_loop_scan.
    destruct (scan_loop NUM num_msg (skipn i chars) i
                (atom_start_chars ++ str_start_chars) "" self)
      as [[[j' tok]|e|] s'] eqn:Escan; try discriminate.
    intros [= <- <-]. simpl self_line. simpl self_tokens.
    destruct (scan_loop_step NUM num_msg chars i _ char self j' tok s'
                ltac:(discriminate) Hc Escan Hlt)
      as (-> & Hj & Hcount & Hline & Htok).
    rewrite Hcount. repeat split; try lia. right. exists tok.
    split; [reflexivity|]. split; [exact Hline|].
    destruct Htok as [[-> (c & Hcj & Hcerr)]|(-> & Hne & Hall)].
    - split; [right; reflexivity|]. split; [intros H; now contradiction H|].
      intros _. exists c. split; [exact Hcj|].
      rewrite str_in_app in Hcerr. unfold restart.
      apply orb_true_iff in Hcerr. destruct Hcerr as [H|H]; rewrite H;
        repeat rewrite orb_true_r; reflexivity.
    - split; [split; assumption|]. split; [reflexivity|discriminate]. }
  unfold classified in Hcl.
  rewrite E1, E2, E3, E4, E5, E6, E7, E8, E9 in Hcl. discriminate Hcl.
Qed.

(** ** Invariants of a run that returns *)

(** A property of the cursor and the object that the iterations on
    characters with a rule keep holds when the loop is left. *)
Lemma tokenize_loop_invariant (P : nat -> Lexer -> Prop) chars :
  (forall i char self j self',
     P i self -> nth_error chars i = Some char -> classified char = true ->
     tokenize_body chars i self = (Ret j, self') -> P j self') ->
  forall fuel i self self',
    P i self -> tokenize_loop fuel chars i self = (Ret tt, self') ->
    exists k, length chars <= k /\ P k self'.
Proof.
  intros Hstep. induction fuel as [|fuel IH]; intros i self self' HP E.
  - simpl in E. destruct (i <? length chars) eqn:Ei; [discriminate E|].
    inversion E; subst. exists i. split; [apply Nat.ltb_ge; exact Ei|exact HP].
  - destruct (Nat.lt_ge_cases i (length chars)) as [Hi|Hi].
    + rewrite (tokenize_loop_step _ _ _ _ Hi) in E.
      destruct (in_bounds_char chars i) as [c Hc]; [now apply Nat.ltb_lt|].
      destruct (classified c) eqn:Hcl.
      * destruct (tokenize_body chars i self) as [[j|e|] s] eqn:Eb;
          try discriminate E.
        apply (IH j s self'); [|exact E].
        apply (Hstep i c self j s HP Hc Hcl Eb).
      * rewrite (tokenize_body_unclassified _ _ _ _ Hc Hcl) in E.
        apply (IH i self self' HP E).
    + rewrite (tokenize_loop_exit _ _ _ _ Hi) in E. inversion E; subst.
      exists i. split; [exact Hi|exact HP].
Qed.

Lemma tokenize_ret_loop fuel self toks self' :
  tokenize fuel self = (Ret toks, self') ->
  tokenize_loop fuel (list_ascii_of_string (self_text self)) 0 self
  = (Ret tt, self') /\ toks = self_tokens self'.
Proof.
  unfold tokenize, bind.
  destruct (tokenize_loop fuel (list_ascii_of_string (self_text self)) 0 self)
    as [[[]|e|] s]; intros [= <- <-]. split; reflexivity.
Qed.

Lemma firstn_chars_between (chars : list ascii) i j :
  i <= j -> firstn j chars = (firstn i chars ++ chars_between chars i j)%list.
Proof.
  unfold chars_between. revert chars j.
  induction i as [|i IH]; intros chars j Hij.
  - simpl. rewrite Nat.sub_0_r. reflexivity.
  - destruct j as [|j]; [lia|]. destruct chars as [|c chars].
    + simpl. rewrite firstn_nil. reflexivity.
    + simpl. f_equal. apply IH. lia.
Qed.

(** X4: when [tokenize] returns on a fresh [Lexer], the line counter has
    counted every newline of the buffer once, be it between tokens, at the
    end of a comment or inside a string: it is 1 plus the number of
    newlines; and the line of every token lies between 1 and that number. *)
Theorem tokenize_counts_newlines :
  forall text fuel toks self',
    tokenize fuel (Lexer_init text) = (Ret toks, self') ->
    self_line self' = 1 + count_nl (list_ascii_of_string text) /\
    Forall (fun tok =>
              1 <= line tok <= 1 + count_nl (list_ascii_of_string text)) toks.
Proof.
  intros text fuel toks self' E.
  apply tokenize_ret_loop in E. destruct E as [E ->]. simpl self_text in E.
  set (chars := list_ascii_of_string text) in *.
  destruct (tokenize_loop_invariant
              (fun i self =>
                 i <= length chars /\
                 self_line self = 1 + count_nl (firstn i chars) /\
                 Forall (fun tok => 1 <= line tok <= self_line self)
                   (self_tokens self))
              chars) with (fuel := fuel) (i := 0) (self := Lexer_init text)
                          (self' := self')
    as (k & Hk & Hle & Hline & Htoks).
  - intros i c self j s (Hi & Hl & Ht) Hc Hcl Eb.
    destruct (tokenize_body_step _ _ _ _ _ _ Hc Hcl Eb)
      as ([Hij Hj] & Hl' & Hemit).
    split; [exact Hj|]. split.
    + rewrite (firstn_chars_between chars i j) by lia.
      rewrite count_nl_app. lia.
    + assert (Hold : Forall (fun tok => 1 <= line tok <= self_line s)
                       (self_tokens self)).
      { eapply Forall_impl; [|exact Ht]. simpl; intros; lia. }
      destruct Hemit as [[-> _]|(tok & -> & Htok & _)]; [exact Hold|].
      apply Forall_app. split; [exact Hold|].
      constructor; [lia|constructor].
  - split; [lia|]. split; [reflexivity|constructor].
  - exact E.
  - assert (k = length chars) by lia. subst k.
    rewrite firstn_all in Hline. split; [exact Hline|].
    rewrite <- Hline. exact Htoks.
Qed.

Lemma tokenize_counts_newlines_witness :
  self_line (snd (tokenize 13 (Lexer_init hello_world)))
  = 1 + count_nl (list_ascii_of_string hello_world) /\
  Forall (fun tok =>
            1 <= line tok <= 1 + count_nl (list_ascii_of_string hello_world))
    [mkToken STR hello_world 2].
Proof.
  apply (tokenize_counts_newlines hello_world 13). reflexivity.
Defined.

(** Every token of a run that returns was appended by an iteration that
    went from a cursor [i] to a cursor [j] within the buffer. *)
Lemma tokenize_tokens_emitted text fuel toks self' :
  tokenize fuel (Lexer_init text) = (Ret toks, self') ->
  Forall (fun tok =>
            exists i j,
              i < j <= length (list_ascii_of_string text) /\
              emitted_ok (list_ascii_of_string text) i j tok) toks.
Proof.
  intros E.
  apply tokenize_ret_loop in E. destruct E as [E ->]. simpl self_text in E.
  set (chars := list_ascii_of_string text) in *.
  destruct (tokenize_loop_invariant
              (fun _ self =>
                 Forall (fun tok =>
                           exists i j,
                             i < j <= length chars /\ emitted_ok chars i j tok)
                   (self_tokens self))
              chars) with (fuel := fuel) (i := 0) (self := Lexer_init text)
                          (self' := self')
    as (k & _ & H).
  - intros i c self j s Ht Hc Hcl Eb.
    destruct (tokenize_body_step _ _ _ _ _ _ Hc Hcl Eb)
      as (Hij & _ & Hemit).
    destruct Hemit as [[-> _]|(tok & -> & _ & Hok)]; [exact Ht|].
    apply Forall_app. split; [exact Ht|].
    constructor; [|constructor]. exists i, j. split; assumption.
  - constructor.
  - exact E.
  - exact H.
Qed.

(** X5: in the sequence [tokenize] returns for a fresh [Lexer], the text of
    every token has the shape of its kind: [(] and [)] for the parentheses;
    for an [ATOM] a non-empty text without digit, double quote, whitespace
    or parenthesis; for a [NUM] a non-empty text without letter, atom
    symbol, double quote, whitespace or parenthesis; for a [STR] a double
    quote, a body without double quote, and a double quote; for an [ERR]
    one of the two diagnostics. *)
Theorem tokenize_token_shapes :
  forall text fuel toks self',
    tokenize fuel (Lexer_init text) = (Ret toks, self') ->
    Forall token_shape toks.
Proof.
  intros text fuel toks self' E.
  eapply Forall_impl; [|exact (tokenize_tokens_emitted _ _ _ _ E)].
  intros tok (i & j & _ & Hshape & _). exact Hshape.
Qed.

Lemma tokenize_token_shapes_witness :
  Forall token_shape
    [mkToken ERR atom_msg 1; mkToken NUM "1" 1; mkToken ATOM "b" 1].
Proof.
  apply (tokenize_token_shapes "a1 b " 5
           [mkToken ERR atom_msg 1; mkToken NUM "1" 1; mkToken ATOM "b" 1]
           (snd (tokenize 5 (Lexer_init "a1 b ")))).
  reflexivity.
Defined.

(** X6: [tokenize] on a fresh [Lexer] never returns more tokens than the
    buffer has characters. *)
Theorem tokenize_token_count_bound :
  forall text fuel toks self',
    tokenize fuel (Lexer_init text) = (Ret toks, self') ->
    length toks <= String.length text.
Proof.
  intros text fuel toks self' E.
  apply tokenize_ret_loop in E. destruct E as [E ->]. simpl self_text in E.
  set (chars := list_ascii_of_string text) in *.
  destruct (tokenize_loop_invariant
              (fun i self =>
                 i <= length chars /\ length (self_tokens self) <= i)
              chars) with (fuel := fuel) (i := 0) (self := Lexer_init text)
                          (self' := self')
    as (k & _ & Hk & Hlen).
  - intros i c self j s (Hi & Hl) Hc Hcl Eb.
    destruct (tokenize_body_step _ _ _ _ _ _ Hc Hcl Eb)
      as ([Hij Hj] & _ & Hemit).
    split; [exact Hj|].
    destruct Hemit as [[-> _]|(tok & -> & _)]; [lia|].
    rewrite length_app. simpl. lia.
  - split; simpl; lia.
  - exact E.
  - assert (Hchars : length chars = String.length text).
    { subst chars. clear. induction text as [|c t IH]; simpl; [reflexivity|].
      f_equal. exact IH. }
    lia.
Qed.

Lemma tokenize_token_count_bound_witness :
  length [mkToken PAREN_OPEN "(" 1; mkToken ATOM "foo" 1;
          mkToken PAREN_CLOSE ")" 1]
  <= String.length "(foo)".
Proof.
  apply (tokenize_token_count_bound "(foo)" 5
           [mkToken PAREN_OPEN "(" 1; mkToken ATOM "foo" 1;
            mkToken PAREN_CLOSE ")" 1]
           (snd (tokenize 5 (Lexer_init "(foo)")))).
  reflexivity.
Defined.

(** X7: a sequence [tokenize] returns for a fresh [Lexer] never ends with an
    [ERR] token: after an [ERR] token the cursor is on the offending
    character, which starts a scanner, so that a further token follows
    whenever the scan returns at all. *)
Theorem tokenize_never_ends_with_err :
  forall text fuel toks self',
    tokenize fuel (Lexer_init text) = (Ret toks, self') ->
    forall before tok, toks = (before ++ [tok])%list -> type tok <> ERR.
Proof.
  intros text fuel toks self' E.
  apply tokenize_ret_loop in E. destruct E as [E ->]. simpl self_text in E.
  set (chars := list_ascii_of_string text) in *.
  destruct (tokenize_loop_invariant
              (fun i self =>
                 forall before tok,
                   self_tokens self = (before ++ [tok])%list ->
                   type tok = ERR ->
                   exists c, nth_error chars i = Some c /\ restart c = true)
              chars) with (fuel := fuel) (i := 0) (self := Lexer_init text)
                          (self' := self')
    as (k & Hk & H).
  - intros i c self j s HP Hc Hcl Eb before tok Htoks Herr.
    destruct (tokenize_body_step _ _ _ _ _ _ Hc Hcl Eb)
      as (_ & _ & Hemit).
    destruct Hemit as [[Hsame Hnr]|(tok' & Happ & _ & _ & _ & Hrestart)].
    + rewrite Hsame in Htoks.
      destruct (HP before tok Htoks Herr) as (c' & Hc' & Hr).
      rewrite Hc in Hc'. inversion Hc'; subst c'. congruence.
    + rewrite Happ in Htoks. apply app_inj_tail in Htoks.
      destruct Htoks as [_ ->]. apply Hrestart. exact Herr.
  - intros before tok Htoks. simpl in Htoks.
    destruct before; discriminate Htoks.
  - exact E.
  - intros before tok Htoks Herr.
    destruct (H before tok Htoks Herr) as (c & Hc & _).
    assert (k < length chars) by (apply nth_error_Some; congruence). lia.
Qed.

Lemma tokenize_never_ends_with_err_witness :
  type (mkToken ATOM "b" 1) <> ERR.
Proof.
  apply (tokenize_never_ends_with_err "a1 b " 5
           [mkToken ERR atom_msg 1; mkToken NUM "1" 1; mkToken ATOM "b" 1]
           (snd (tokenize 5 (Lexer_init "a1 b ")))
           eq_refl
           [mkToken ERR atom_msg 1; mkToken NUM "1" 1]).
  reflexivity.
Defined.

(** ** Buffers of parentheses and blanks *)

Lemma isspace_not_paren c :
  isspace c = true -> Ascii.eqb c "(" = false /\ Ascii.eqb c ")" = false.
Proof.
  destruct c as [[] [] [] [] [] [] [] []]; vm_compute; intros H;
    first [split; reflexivity | discriminate H].
Qed.

Lemma nth_error_middle (pre : list ascii) c rest :
  nth_error (pre ++ c :: rest) (length pre) = Some c.
Proof.
  rewrite nth_error_app2 by lia. rewrite Nat.sub_diag. reflexivity.
Qed.

Lemma tokenize_loop_parens_and_blanks rest :
  Forall paren_or_blank rest ->
  forall pre self,
    tokenize_loop (length rest) (pre ++ rest) (length pre) self
    = (Ret tt,
       {| self_text := self_text self; self_pos := self_pos self;
          self_line := self_line self + count_nl rest;
          self_tokens := self_tokens self
                         ++ paren_tokens rest (self_line self) |}).
Proof.
  induction 1 as [|c rest Hc Hrest IH]; intros pre self.
  - rewrite tokenize_loop_exit by (rewrite app_nil_r; lia).
    destruct self; simpl. rewrite app_nil_r.
    change (count_nl []) with 0. rewrite Nat.add_0_r. reflexivity.
  - simpl length.
    rewrite tokenize_loop_step by (rewrite length_app; simpl; lia).
    assert (Hnext : forall s,
              tokenize_loop (length rest) (pre ++ c :: rest) (length pre + 1) s
              = (Ret tt,
                 {| self_text := self_text s; self_pos := self_pos s;
                    self_line := self_line s + count_nl rest;
                    self_tokens := self_tokens s
                                   ++ paren_tokens rest (self_line s) |})).
    { intros s. specialize (IH (pre ++ [c])%list s).
      rewrite <- app_assoc, length_app in IH. exact IH. }
    unfold tokenize_body. rewrite nth_error_middle.
    destruct Hc as [->|[->|Hsp]].
    + simpl. unfold bind, get_line, tokens_append, ret. rewrite Hnext.
      simpl. rewrite (count_nl_cons_other "(" rest eq_refl).
      rewrite <- app_assoc. reflexivity.
    + simpl. unfold bind, get_line, tokens_append, ret. rewrite Hnext.
      simpl. rewrite (count_nl_cons_other ")" rest eq_refl).
      rewrite <- app_assoc. reflexivity.
    + destruct (isspace_not_paren c Hsp) as [Ho Hcl].
      simpl paren_tokens. destruct (Ascii.eqb c nl) eqn:Enl.
      * apply Ascii.eqb_eq in Enl. subst c.
        rewrite bind_incr_line. unfold ret. rewrite Hnext.
        rewrite count_nl_cons_nl. simpl.
        rewrite <- Nat.add_assoc. reflexivity.
      * rewrite Hsp, Ho, Hcl. unfold bind, ret. rewrite Hnext.
        rewrite (count_nl_cons_other c rest Enl). reflexivity.
Qed.

(** X8: on a buffer made of parentheses and whitespace only, [tokenize]
    returns, within as many iterations as the buffer has characters: the
    sequence holds one [PAREN_OPEN] or [PAREN_CLOSE] token per parenthesis,
    in the order of the buffer, each with 1 plus the number of newlines
    before it as its line, and nothing else. *)
Theorem tokenize_parens_and_blanks :
  forall text,
    Forall paren_or_blank (list_ascii_of_string text) ->
    tokenize (length (list_ascii_of_string text)) (Lexer_init text)
    = (Ret (paren_tokens (list_ascii_of_string text) 1),
       {| self_text := text; self_pos := 0;
          self_line := 1 + count_nl (list_ascii_of_string text);
          self_tokens := paren_tokens (list_ascii_of_string text) 1 |}).
Proof.
  intros text H. unfold tokenize, bind. simpl self_text.
  pose proof (tokenize_loop_parens_and_blanks _ H [] (Lexer_init text)) as E.
  change ([] ++ list_ascii_of_string text)%list
    with (list_ascii_of_string text) in E.
  change (length (@nil ascii)) with 0 in E.
  rewrite E. reflexivity.
Qed.

Lemma tokenize_parens_and_blanks_witness :
  tokenize (length (list_ascii_of_string ("(( )" ++ String nl ")")))
    (Lexer_init ("(( )" ++ String nl ")"))
  = (Ret (paren_tokens (list_ascii_of_string ("(( )" ++ String nl ")")) 1),
     {| self_text := "(( )" ++ String nl ")"; self_pos := 0;
        self_line := 1 + count_nl (list_ascii_of_string
                                     ("(( )" ++ String nl ")"));
        self_tokens :=
          paren_tokens (list_ascii_of_string ("(( )" ++ String nl ")")) 1 |}).
Proof.
  apply (tokenize_parens_and_blanks ("(( )" ++ String nl ")")).
  repeat (apply Forall_cons;
          [ unfold paren_or_blank;
            first [ left; reflexivity
                  | right; left; reflexivity
                  | right; right; reflexivity ] | ]).
  apply Forall_nil.
Defined.

(** ** Every behaviour of [tokenize] *)

Lemma tokenize_loop_decided chars self0 :
  forall fuel i self,
    visits chars self0 i self -> length chars - i <= fuel ->
    (exists self', tokenize_loop fuel chars i self = (Ret tt, self')) \/
    (exists self', tokenize_loop fuel chars i self = (Raise IndexError, self'))
    \/
    (exists k c s,
       visits chars self0 k s /\ nth_error chars k = Some c /\
       classified c = false).
Proof.
  induction fuel as [|fuel IH]; intros i self Hv Hfuel.
  - left. exists self. apply tokenize_loop_exit. lia.
  - destruct (Nat.lt_ge_cases i (length chars)) as [Hi|Hi].
    + destruct (in_bounds_char chars i) as [c Hc]; [now apply Nat.ltb_lt|].
      destruct (classified c) eqn:Hcl.
      * rewrite (tokenize_loop_step _ _ _ _ Hi).
        pose proof (tokenize_body_spec chars i c self Hc)
          as (_ & _ & _ & _ & Hr).
        destruct (tokenize_body chars i self) as [[j|e|] s] eqn:Eb;
          simpl in Hr.
        -- rewrite Hcl in Hr. apply IH; [|lia].
           eapply visits_next; eassumption.
        -- destruct Hr as [-> _]. right. left. exists s. reflexivity.
        -- destruct Hr.
      * right. right. exists i, c, self. repeat split; assumption.
    + left. exists self. apply tokenize_loop_exit. exact Hi.
Qed.

Lemma visits_diverge chars self0 k s :
  visits chars self0 k s ->
  (forall fuel, fst (tokenize_loop fuel chars k s) = Diverge) ->
  forall fuel, fst (tokenize_loop fuel chars 0 self0) = Diverge.
Proof.
  induction 1 as [|i self j self' Hv IH Hi Eb]; intros Hd; [exact Hd|].
  apply IH. intros [|fuel].
  - simpl. apply Nat.ltb_lt in Hi. rewrite Hi. reflexivity.
  - rewrite (tokenize_loop_step _ _ _ _ Hi), Eb. apply Hd.
Qed.

(** X9: the behaviours of [tokenize] on a fresh [Lexer] are three, and as
    many iterations as the buffer has characters decide which: it returns;
    or a scan reads past the end of the buffer and it raises [IndexError];
    or the loop reaches a character without a rule and never ends. *)
Theorem tokenize_decided_within_length :
  forall text,
    (exists toks self',
       tokenize (length (list_ascii_of_string text)) (Lexer_init text)
       = (Ret toks, self')) \/
    (exists self',
       tokenize (length (list_ascii_of_string text)) (Lexer_init text)
       = (Raise IndexError, self')) \/
    (exists i c self,
       visits (list_ascii_of_string text) (Lexer_init text) i self /\
       nth_error (list_ascii_of_string text) i = Some c /\
       classified c = false /\
       forall fuel, fst (tokenize fuel (Lexer_init text)) = Diverge).
Proof.
  intros text. set (chars := list_ascii_of_string text).
  destruct (tokenize_loop_decided chars (Lexer_init text) (length chars) 0
              (Lexer_init text)) as [[s E]|[[s E]|(k & c & s & Hv & Hc & Hcl)]];
    [constructor|lia| | |].
  - left. exists (self_tokens s), s. unfold tokenize, bind. simpl self_text.
    fold chars. rewrite E. reflexivity.
  - right. left. exists s. unfold tokenize, bind. simpl self_text.
    fold chars. rewrite E. reflexivity.
  - right. right. exists k, c, s. repeat split; try assumption.
    intros fuel. unfold tokenize, bind. simpl self_text. fold chars.
    pose proof (visits_diverge chars (Lexer_init text) k s Hv) as Hd.
    specialize (Hd (fun f => f_equal fst (tokenize_loop_spins chars k c s Hc Hcl f))
                  fuel).
    destruct (tokenize_loop fuel chars 0 (Lexer_init text)) as [[u|e|] s'];
      simpl in Hd; try discriminate Hd. reflexivity.
Qed.

(** ** What a call leaves of the object *)

Lemma tokenize_loop_appends fuel chars i self :
  exists new,
    self_tokens (snd (tokenize_loop fuel chars i self))
    = (self_tokens self ++ new)%list.
Proof.
  revert i self; induction fuel as [|fuel IH]; intros i self; simpl;
    destruct (i <? length chars) eqn:Ei; simpl;
    try (exists []; symmetry; apply app_nil_r).
  destruct (in_bounds_char _ _ Ei) as [c Hc].
  pose proof (tokenize_body_spec chars i c self Hc) as (_ & _ & _ & Ht & _).
  unfold bind.
  destruct (tokenize_body chars i self) as [[j|e|] self']; simpl in *.
  - destruct (IH j self') as [new Hnew]. rewrite Hnew.
    destruct Ht as [->|(tok & -> & _)]; [exists new; reflexivity|].
    exists (tok :: new). rewrite <- app_assoc. reflexivity.
  - destruct Ht as [->|(tok & -> & _)]; [exists []|exists [tok]];
      [symmetry; apply app_nil_r|reflexivity].
  - destruct Ht as [->|(tok & -> & _)]; [exists []|exists [tok]];
      [symmetry; apply app_nil_r|reflexivity].
Qed.

(** X10: whatever the state of the object and however the call ends (a
    return, an [IndexError], or a loop without end), [tokenize] only appends
    to the token list and only advances the line counter: the tokens held
    before the call remain, in front; the buffer and [pos] are not
    written. *)
Theorem tokenize_only_appends :
  forall fuel self,
    self_text (snd (tokenize fuel self)) = self_text self /\
    self_pos (snd (tokenize fuel self)) = self_pos self /\
    self_line self <= self_line (snd (tokenize fuel self)) /\
    exists new,
      self_tokens (snd (tokenize fuel self)) = (self_tokens self ++ new)%list.
Proof.
  intros fuel self. unfold tokenize, bind.
  pose proof (tokenize_loop_frame fuel
                (list_ascii_of_string (self_text self)) 0 self) as (Ht & Hp & Hl).
  pose proof (tokenize_loop_appends fuel
                (list_ascii_of_string (self_text self)) 0 self) as Ha.
  destruct (tokenize_loop fuel (list_ascii_of_string (self_text self)) 0 self)
    as [[u|e|] self']; simpl in *; repeat split; assumption.
Qed.

(** ** Where the tokens come from *)

Lemma spans_snoc spans :
  forall lo a b,
    spans_in_order lo spans -> spans_end lo spans <= a -> a < b ->
    spans_in_order lo (spans ++ [(a, b)]) /\
    spans_end lo (spans ++ [(a, b)]) = b.
Proof.
  induction spans as [|[a0 b0] spans IH]; intros lo a b Hord Hend Hab; simpl in *.
  - repeat split; assumption.
  - destruct Hord as (H1 & H2 & H3).
    destruct (IH b0 a b H3 Hend Hab) as [IH1 IH2].
    repeat split; assumption.
Qed.

(** The tokens of a run that returns, with the span of the buffer each was
    scanned from. *)
Lemma tokenize_tokens_spans text fuel toks self' :
  tokenize fuel (Lexer_init text) = (Ret toks, self') ->
  exists spans,
    Forall2 (fun tok span =>
               emitted_ok (list_ascii_of_string text) (fst span) (snd span) tok
               /\ line tok = line_at (list_ascii_of_string text) (snd span))
      toks spans /\
    spans_in_order 0 spans /\
    spans_end 0 spans <= length (list_ascii_of_string text).
Proof.
  intros E.
  apply tokenize_ret_loop in E. destruct E as [E ->]. simpl self_text in E.
  set (chars := list_ascii_of_string text) in *.
  destruct (tokenize_loop_invariant
              (fun i self =>
                 i <= length chars /\
                 self_line self = line_at chars i /\
                 exists spans,
                   Forall2 (fun tok span =>
                              emitted_ok chars (fst span) (snd span) tok /\
                              line tok = line_at chars (snd span))
                     (self_tokens self) spans /\
                   spans_in_order 0 spans /\ spans_end 0 spans <= i)
              chars) with (fuel := fuel) (i := 0) (self := Lexer_init text)
                          (self' := self')
    as (k & Hk & Hle & _ & spans & Htoks & Hord & Hend).
  - intros i c self j s (Hi & Hl & spans & Ht & Hord & Hend) Hc Hcl Eb.
    destruct (tokenize_body_step _ _ _ _ _ _ Hc Hcl Eb)
      as ([Hij Hj] & Hl' & Hemit).
    assert (Hline : self_line s = line_at chars j).
    { unfold line_at in *. rewrite (firstn_chars_between chars i j) by lia.
      rewrite count_nl_app. lia. }
    split; [exact Hj|]. split; [exact Hline|].
    destruct Hemit as [[-> _]|(tok & -> & Htok & Hok)].
    + exists spans. repeat split; try assumption. lia.
    + destruct (spans_snoc spans 0 i j Hord Hend Hij) as [Hord' Hend'].
      exists (spans ++ [(i, j)])%list. split; [|split; [exact Hord'|lia]].
      apply Forall2_app; [exact Ht|].
      constructor; [|constructor]. simpl. split; [exact Hok|congruence].
  - split; [lia|]. split; [reflexivity|]. exists []. simpl.
    repeat split; [constructor|lia].
  - exact E.
  - exists spans. repeat split; try assumption. lia.
Qed.



(** X12: the tokens [tokenize] returns for a fresh [Lexer] come one by one
    from spans of the buffer that are not empty, do not overlap and follow
    one another in the order of the buffer: the sequence is in source
    order, and the text of every token but an [ERR] token is the text of
    its span. *)
Theorem tokenize_tokens_in_source_order :
  forall text fuel toks self',
    tokenize fuel (Lexer_init text) = (Ret toks, self') ->
    exists spans,
      Forall2 (fun tok span =>
                 type tok <> ERR ->
                 value tok
                 = slice (list_ascii_of_string text) (fst span) (snd span))
        toks spans /\
      spans_in_order 0 spans /\
      spans_end 0 spans <= length (list_ascii_of_string text).
Proof.
  intros text fuel toks self' E.
  destruct (tokenize_tokens_spans _ _ _ _ E) as (spans & Ht & Hord & Hend).
  exists spans. split; [|split; assumption].
  eapply Forall2_impl; [|exact Ht].
  intros tok span [(_ & Hslice & _) _]. exact Hslice.
Qed.

Lemma tokenize_tokens_in_source_order_witness :
  exists spans,
    Forall2 (fun tok span =>
               type tok <> ERR ->
               value tok
               = slice (list_ascii_of_string "(foo)") (fst span) (snd span))
      [mkToken PAREN_OPEN "(" 1; mkToken ATOM "foo" 1; mkToken PAREN_CLOSE ")" 1]
      spans /\
    spans_in_order 0 spans /\
    spans_end 0 spans <= length (list_ascii_of_string "(foo)").
Proof.
  apply (tokenize_tokens_in_source_order "(foo)" 5
           [mkToken PAREN_OPEN "(" 1; mkToken ATOM "foo" 1;
            mkToken PAREN_CLOSE ")" 1]
           (snd (tokenize 5 (Lexer_init "(foo)")))).
  reflexivity.
Defined.

(** ** The number of iterations *)

(** X13: a scan of a fresh [Lexer] that returns has returned within as many
    iterations of the dispatch loop as the buffer has characters. *)
Theorem tokenize_returns_within_length :
  forall text fuel toks self',
    tokenize fuel (Lexer_init text) = (Ret toks, self') ->
    tokenize (length (list_ascii_of_string text)) (Lexer_init text)
    = (Ret toks, self').
Proof.
  intros text fuel toks self' E.
  set (n := length (list_ascii_of_string text)).
  destruct (Nat.le_ge_cases fuel n) as [H|H].
  - rewrite (tokenize_fuel_mono fuel n _ H); [exact E|].
    rewrite E. discriminate.
  - assert (Hn : fst (tokenize n (Lexer_init text)) <> Diverge).
    { intros Hd.
      pose proof (tokenize_fuel_mono n fuel (Lexer_init text) H) as Hm.
      destruct (Nat.eq_dec fuel n) as [->|Hne];
        [rewrite E in Hd; discriminate Hd|].
      assert (Hlt : n < fuel) by lia.
      revert Hd. unfold tokenize, bind. simpl self_text.
      fold n.
      destruct (tokenize_loop_decided (list_ascii_of_string text)
                  (Lexer_init text) n 0 (Lexer_init text))
        as [[s Es]|[[s Es]|(k & c & s & Hv & Hc & Hcl)]];
        [constructor|unfold n; lia| | |].
      - rewrite Es. discriminate.
      - rewrite Es. discriminate.
      - intros _.
        pose proof (visits_diverge _ _ k s Hv
                      (fun f => f_equal fst
                                  (tokenize_loop_spins _ k c s Hc Hcl f))
                      fuel) as Hdiv.
        unfold tokenize, bind in E. simpl self_text in E.
        destruct (tokenize_loop fuel (list_ascii_of_string text) 0
                    (Lexer_init text)) as [[u|e|] s'];
          simpl in Hdiv; discriminate. }
    rewrite <- (tokenize_fuel_mono n fuel _ H Hn). exact E.
Qed.

Lemma tokenize_returns_within_length_witness :
  tokenize (length (list_ascii_of_string "(foo)")) (Lexer_init "(foo)")
  = (Ret [mkToken PAREN_OPEN "(" 1; mkToken ATOM "foo" 1;
          mkToken PAREN_CLOSE ")" 1],
     snd (tokenize 9 (Lexer_init "(foo)"))).
Proof.
  apply (tokenize_returns_within_length "(foo)" 9). reflexivity.
Defined.
